(** * OSSA lifetime completion

    A shallow embedding of [include/swift/SIL/OSSALifetimeCompletion.h]:
    the completion engine [OSSALifetimeCompletion] with its inline
    [completeOSSALifetime], and the pre-deletion fixup
    [UnreachableLifetimeCompletion] with its inline [visitUnreachableBlock].

    The header only declares [analyzeAndUpdateLifetime],
    [visitAvailabilityBoundary], [visitUnreachableInst] and
    [completeLifetimes]; their bodies, and the IR types they work on, live
    outside the header.  Every definition that stands for such a missing part
    says so in its doc comment. *)

From stdpp Require Import base option list gmap sets.

(** ** Enumerations of the header *)

(** [enum class LifetimeCompletion { NoLifetime, AlreadyComplete, WasCompleted }] *)
Inductive LifetimeCompletion := NoLifetime | AlreadyComplete | WasCompleted.

#[global] Instance LifetimeCompletion_eq_dec : EqDecision LifetimeCompletion.
Proof. solve_decision. Defined.

(** [OSSALifetimeCompletion::Boundary::Value] *)
Inductive Boundary := Liveness | Availability | AvailabilityWithLeaks.

#[global] Instance Boundary_eq_dec : EqDecision Boundary.
Proof. solve_decision. Defined.

(** [enum AllowLeaks_t : bool { AllowLeaks = true, DoNotAllowLeaks = false }] *)
Inductive AllowLeaks_t := AllowLeaks | DoNotAllowLeaks.

Definition AllowLeaks_bool (a : AllowLeaks_t) : bool :=
  match a with AllowLeaks => true | DoNotAllowLeaks => false end.

(** Modelled from the spec: the ownership kinds of a value (the type
    [OwnershipKind] is declared outside the header; the header itself names
    [OwnershipKind::None] and [OwnershipKind::Owned]). *)
Module OwnershipKind.
Inductive t := None | Owned | Guaranteed.

#[global] Instance eq_dec : EqDecision t.
Proof. solve_decision. Defined.
End OwnershipKind.

(** ** Values *)

(** Modelled from the spec: a valid [BorrowedValue], that is a borrow
    introducer; [isLocalScope] tells whether the scope it opens is ended
    inside the function. *)
Record BorrowedValueT := mkBorrowedValue { isLocalScope : bool }.

(** Modelled from the spec: what a value carries.  Only a guaranteed value
    carries the borrow introducer flag. *)
Inductive Ownership :=
| OwnNone
| OwnOwned
| OwnGuaranteed (introducer : option BorrowedValueT).

(** Modelled from the spec: an IR value ([SILValue]); [valueId] is its
    identity in the function, [isLexical] whether it is bound to a debug
    scope. *)
Record SILValue := mkValue {
  valueId : nat;
  ownership : Ownership;
  isLexical : bool
}.

(** [value->getOwnershipKind()] *)
Definition getOwnershipKind (value : SILValue) : OwnershipKind.t :=
  match ownership value with
  | OwnNone => OwnershipKind.None
  | OwnOwned => OwnershipKind.Owned
  | OwnGuaranteed _ => OwnershipKind.Guaranteed
  end.

(** [BorrowedValue borrowedValue(value)]; [None] is the invalid
    [BorrowedValue], for which [!borrowedValue] holds. *)
Definition BorrowedValue (value : SILValue) : option BorrowedValueT :=
  match ownership value with
  | OwnGuaranteed bv => bv
  | _ => None
  end.

Definition Ownership_code (o : Ownership) : nat :=
  match o with
  | OwnNone => 0
  | OwnOwned => 1
  | OwnGuaranteed None => 2
  | OwnGuaranteed (Some (mkBorrowedValue false)) => 3
  | OwnGuaranteed (Some (mkBorrowedValue true)) => 4
  end.

Definition Ownership_decode (n : nat) : Ownership :=
  match n with
  | 0 => OwnNone
  | 1 => OwnOwned
  | 2 => OwnGuaranteed None
  | 3 => OwnGuaranteed (Some (mkBorrowedValue false))
  | _ => OwnGuaranteed (Some (mkBorrowedValue true))
  end.

Definition SILValue_code (v : SILValue) : nat * nat * bool :=
  (valueId v, Ownership_code (ownership v), isLexical v).

Definition SILValue_decode (c : nat * nat * bool) : SILValue :=
  mkValue c.1.1 (Ownership_decode c.1.2) c.2.

#[global] Instance BorrowedValueT_eq_dec : EqDecision BorrowedValueT.
Proof. solve_decision. Defined.

#[global] Instance Ownership_eq_dec : EqDecision Ownership.
Proof. solve_decision. Defined.

#[global] Instance SILValue_eq_dec : EqDecision SILValue.
Proof. solve_decision. Defined.

#[global] Instance SILValue_countable : Countable SILValue.
Proof.
  apply (inj_countable' SILValue_code SILValue_decode).
  intros [i o l]. unfold SILValue_decode, SILValue_code. simpl. f_equal.
  destruct o as [| |[[[]]|]]; reflexivity.
Defined.

(** ** The control-flow graph *)

(** Modelled from the spec: the instructions completion can tell apart.
    [EndLifetime v] is a lifetime-ending instruction for [v] (it consumes an
    owned value or closes a borrow scope), [Use v] a non-consuming use,
    [Define v] the definition of [v]. *)
Inductive SILInstruction :=
| Define (v : SILValue)
| Use (v : SILValue)
| EndLifetime (v : SILValue)
| OtherInst.

#[global] Instance SILInstruction_eq_dec : EqDecision SILInstruction.
Proof. solve_decision. Defined.

(** Modelled from the spec: terminators.  [UnreachableInst] is the
    guaranteed dead end, [ReturnInst] leaves the function normally. *)
Inductive TermInst :=
| UnreachableInst
| ReturnInst
| BranchInst (successors : list nat).

#[global] Instance TermInst_eq_dec : EqDecision TermInst.
Proof. solve_decision. Defined.

(** Modelled from the spec: a basic block, ordered instructions closed by a
    terminator. *)
Record SILBasicBlock := mkBlock {
  insts : list SILInstruction;
  terminator : TermInst
}.

#[global] Instance SILBasicBlock_eq_dec : EqDecision SILBasicBlock.
Proof. solve_decision. Defined.

(** Modelled from the spec: a function body; a block is named by its index,
    block 0 is the entry. *)
Abbreviation SILFunction := (list SILBasicBlock).

(** Modelled from the spec: a program point, the instruction [posIndex] of
    block [posBlock]; [posIndex = length (insts block)] names the
    terminator. *)
Record Position := mkPosition { posBlock : nat; posIndex : nat }.

#[global] Instance Position_eq_dec : EqDecision Position.
Proof. solve_decision. Defined.

Definition isDeadEnd (term : TermInst) : bool :=
  match term with UnreachableInst => true | _ => false end.

Definition getSuccessorBlocks (block : SILBasicBlock) : list nat :=
  match terminator block with
  | BranchInst successors => successors
  | _ => []
  end.

Definition terminatorPosition (b : nat) (block : SILBasicBlock) : Position :=
  mkPosition b (length (insts block)).

(** Modelled from the spec: the insertion primitive.  A lifetime-ending
    instruction for [value] is put in front of the instruction at [pos]. *)
Definition insertInBlock (value : SILValue) (index : nat)
    (block : SILBasicBlock) : SILBasicBlock :=
  mkBlock (take index (insts block) ++ EndLifetime value :: drop index (insts block))
          (terminator block).

Definition insertLifetimeEnd (value : SILValue) (F : SILFunction)
    (pos : Position) : SILFunction :=
  alter (insertInBlock value (posIndex pos)) (posBlock pos) F.

(** The instructions of a block that end no lifetime. *)
Definition isEnding (i : SILInstruction) : bool :=
  match i with EndLifetime _ => true | _ => false end.

Definition otherInsts (block : SILBasicBlock) : list SILInstruction :=
  filter (λ i, isEnding i = false) (insts block).

(** *** Paths and the endings they carry *)

Definition isEndOf (v : SILValue) (i : SILInstruction) : bool :=
  bool_decide (i = EndLifetime v).

Definition endingsInBlock (v : SILValue) (block : SILBasicBlock) : nat :=
  length (filter (λ i, isEndOf v i = true) (insts block)).

(** Number of lifetime-ending instructions for [v] along the blocks of
    [path]. *)
Fixpoint endingsOnPath (F : SILFunction) (v : SILValue) (path : list nat) : nat :=
  match path with
  | [] => 0
  | b :: rest =>
      from_option (endingsInBlock v) 0 (F !! b) + endingsOnPath F v rest
  end.

(** [path] follows successor edges and stops at a block that returns from
    the function. *)
Fixpoint isPathToExit (F : SILFunction) (path : list nat) : bool :=
  match path with
  | [] => false
  | b :: rest =>
      match F !! b with
      | None => false
      | Some block =>
          match rest with
          | [] => bool_decide (terminator block = ReturnInst)
          | b' :: _ =>
              bool_decide (b' ∈ getSuccessorBlocks block) && isPathToExit F rest
          end
      end
  end.

Definition definedIn (F : SILFunction) (v : SILValue) (b : nat) : bool :=
  from_option (λ block, bool_decide (Define v ∈ insts block)) false (F !! b).

(** A control-flow path from the definition of [v] to function exit. *)
Definition isPathFromDefinition (F : SILFunction) (v : SILValue)
    (path : list nat) : bool :=
  from_option (definedIn F v) false (head path) && isPathToExit F path.





(** ** Collaborators *)

(** Modelled from the spec: what the surrounding compiler supplies (the
    headers [OwnershipLiveness.h] and [NodeDatastructures.h] are not part of
    this file).  [computeLiveness] is the liveness oracle;
    [livenessBoundary] gives the points immediately after the last
    non-consuming uses; [availabilityBoundaryBlocks] gives the last blocks
    beyond the non-consuming uses in which the value has been consumed on no
    incoming path; [innerBorrowScopes] gives the local borrow scopes nested
    under a value, a relation fixed by the defining instructions, which
    completion neither adds nor removes. *)
Class Collaborators := {
  DominanceInfo : Type;
  SSAPrunedLiveness : Type;
  computeLiveness :
    option DominanceInfo → SILFunction → SILValue → SSAPrunedLiveness;
  livenessBoundary : SILFunction → SSAPrunedLiveness → list Position;
  availabilityBoundaryBlocks :
    SILFunction → SILValue → SSAPrunedLiveness → list nat;
  innerBorrowScopes : SILValue → list SILValue
}.

(** [ValueSet::insert]: true when the value was not yet in the set. *)
Definition ValueSet_insert (value : SILValue) (s : gset SILValue)
    : bool * gset SILValue :=
  if decide (value ∈ s) then (false, s) else (true, {[value]} ∪ s).

(** [SetVector::insert]: appended unless already present. *)
Definition SetVector_insert `{EqDecision A} (x : A) (l : list A) : list A :=
  if decide (x ∈ l) then l else l ++ [x].

(** ** The completion engine *)

Module OSSALifetimeCompletion.
Section Engine.
Context `{Collaborators}.

(** The engine: the optional dominance information, the cache of values
    already handled, and the function it was built for, whose body
    completion edits in place. *)
Record t := mk {
  domInfo : option DominanceInfo;
  completedValues : gset SILValue;
  function : SILFunction
}.

(** [OSSALifetimeCompletion(function, domInfo)] *)
Definition new (function : SILFunction) (domInfo : option DominanceInfo) : t :=
  mk domInfo ∅ function.

(** Modelled from the spec: the body of [visitAvailabilityBoundary], which
    the header only declares.  Each block of the availability boundary is
    a candidate; when leaks are allowed, a candidate whose terminator is
    not an unreachable is skipped; [visit] is called on the terminator of
    every other candidate.  The calls of [visit] are returned in order. *)
Definition visitAvailabilityBoundary (value : SILValue)
    (allowLeaks : AllowLeaks_t) (liveness : SSAPrunedLiveness)
    (F : SILFunction) : list Position :=
  b ← availabilityBoundaryBlocks F value liveness;
  match F !! b with
  | None => []
  | Some block =>
      if AllowLeaks_bool allowLeaks && negb (isDeadEnd (terminator block))
      then []
      else [terminatorPosition b block]
  end.

(** Modelled from the spec: the points at which the lifetime of [value] is
    ended along [boundary]. *)
Definition boundaryEnds (value : SILValue) (boundary : Boundary)
    (liveness : SSAPrunedLiveness) (F : SILFunction) : list Position :=
  match boundary with
  | Liveness => livenessBoundary F liveness
  | Availability => visitAvailabilityBoundary value DoNotAllowLeaks liveness F
  | AvailabilityWithLeaks => visitAvailabilityBoundary value AllowLeaks liveness F
  end.

(** Modelled from the spec: the recursive calls of
    [analyzeAndUpdateLifetime] on the scopes nested under a value, in
    order, each with the boundary of the outer call. *)
Fixpoint completeInnerScopes
    (recurse : SILValue → Boundary → t → option (LifetimeCompletion * t))
    (boundary : Boundary) (inner : list SILValue) (self : t) : option t :=
  match inner with
  | [] => Some self
  | innerValue :: rest =>
      match recurse innerValue boundary self with
      | None => None
      | Some (_, self') => completeInnerScopes recurse boundary rest self'
      end
  end.

(** Modelled from the spec: the body of [analyzeAndUpdateLifetime], which
    the header only declares.  The local borrow scopes nested under
    [value] are completed first, through [recurse]; then the liveness of
    [value] is asked of the oracle and a lifetime-ending instruction is
    inserted at every point of the boundary.  The result tells whether an
    ending was inserted for [value]. *)
Definition analyzeAndUpdateLifetime
    (recurse : SILValue → Boundary → t → option (LifetimeCompletion * t))
    (value : SILValue) (boundary : Boundary) (self : t) : option (bool * t) :=
  match completeInnerScopes recurse boundary (innerBorrowScopes value) self with
  | None => None
  | Some self1 =>
      let liveness := computeLiveness (domInfo self1) (function self1) value in
      let ends := boundaryEnds value boundary liveness (function self1) in
      Some (bool_decide (ends ≠ []),
            mk (domInfo self1) (completedValues self1)
               (foldl (insertLifetimeEnd value) (function self1) ends))
  end.

(** [completeOSSALifetime(value, boundary)], lines 98-116 of the header.
    [fuel] bounds the depth of the recursion through
    [analyzeAndUpdateLifetime]; [None] means that it ran out. *)
Fixpoint completeOSSALifetime (fuel : nat) (value : SILValue)
    (boundary : Boundary) (self : t) : option (LifetimeCompletion * t) :=
  match fuel with
  | 0 => None
  | S fuel =>
      if decide (getOwnershipKind value = OwnershipKind.None)
      then Some (NoLifetime, self)
      else
        match
          (if decide (getOwnershipKind value ≠ OwnershipKind.Owned) then
             match BorrowedValue value with
             | None => Some NoLifetime
             | Some borrowedValue =>
                 if negb (isLocalScope borrowedValue)
                 then Some AlreadyComplete
                 else None
             end
           else None)
        with
        | Some early => Some (early, self)
        | None =>
            let '(inserted, completed) :=
              ValueSet_insert value (completedValues self) in
            if negb inserted then Some (AlreadyComplete, self)
            else
              match
                analyzeAndUpdateLifetime (completeOSSALifetime fuel) value
                  boundary (mk (domInfo self) completed (function self))
              with
              | None => None
              | Some (changed, self') =>
                  Some (if changed : bool then WasCompleted
                        else AlreadyComplete, self')
              end
        end
  end.

(** A sequence of calls on one engine; each entry of the result pairs what
    the call returned with the engine it left behind. *)
Fixpoint completeAll (fuel : nat) (calls : list (SILValue * Boundary))
    (self : t) : option (list (LifetimeCompletion * t)) :=
  match calls with
  | [] => Some []
  | (value, boundary) :: rest =>
      match completeOSSALifetime fuel value boundary self with
      | None => None
      | Some (r, self') =>
          match completeAll fuel rest self' with
          | None => None
          | Some rs => Some ((r, self') :: rs)
          end
      end
  end.

(** The values whose lifetime completion has to end: owned values and
    locally scoped borrow introducers. *)
Definition hasLocalLifetime (value : SILValue) : Prop :=
  getOwnershipKind value = OwnershipKind.Owned
  ∨ ∃ borrowedValue,
      BorrowedValue value = Some borrowedValue
      ∧ isLocalScope borrowedValue = true.

(** The selection the comment above [completeOSSALifetime] describes for a
    call that leaves the boundary out. *)
Definition defaultBoundary (value : SILValue) : Boundary :=
  if isLexical value then Availability else Liveness.

(** The two ways in which a call changes the engine: a value with a local
    lifetime enters [completedValues], and the lifetime of a value
    already entered is ended along the boundary. *)
Inductive step (boundary : Boundary) : t → t → Prop :=
| step_insert self value :
    hasLocalLifetime value →
    value ∉ completedValues self →
    step boundary self
      (mk (domInfo self) ({[value]} ∪ completedValues self) (function self))
| step_ends self value :
    hasLocalLifetime value →
    value ∈ completedValues self →
    step boundary self
      (mk (domInfo self) (completedValues self)
         (foldl (insertLifetimeEnd value) (function self)
            (boundaryEnds value boundary
               (computeLiveness (domInfo self) (function self) value)
               (function self)))).

(** A value every further call answers at once: a borrow introducer that
    is not locally scoped, or a value with a local lifetime that is in
    [completedValues]. *)
Definition settled (value : SILValue) (self : t) : Prop :=
  (∃ borrowedValue, BorrowedValue value = Some borrowedValue
                    ∧ isLocalScope borrowedValue = false)
  ∨ (hasLocalLifetime value ∧ value ∈ completedValues self).

(** How many of the calls on [value] returned [WasCompleted]. *)
Definition wasCompletedCalls (value : SILValue)
    (calls : list (SILValue * Boundary))
    (results : list (LifetimeCompletion * t)) : nat :=
  length (filter (λ cr, cr.1.1 = value ∧ cr.2.1 = WasCompleted)
                 (zip calls results)).

(** The values [completeOSSALifetime] returns early on. *)
Definition hasNoLocalLifetime (value : SILValue) : Prop :=
  getOwnershipKind value = OwnershipKind.None
  ∨ (getOwnershipKind value ≠ OwnershipKind.Owned ∧ BorrowedValue value = None)
  ∨ (∃ borrowedValue, BorrowedValue value = Some borrowedValue
                      ∧ isLocalScope borrowedValue = false).

(** Every value of [completedValues] has a local lifetime. *)
Definition completedValues_ok (self : t) : Prop :=
  ∀ value, value ∈ completedValues self → hasLocalLifetime value.

(** Completion only inserts endings: [F'] has the blocks of [F], each
    with its terminator, its instructions other than endings, in order,
    and at least its endings of every value. *)
Definition insertedInto (F F' : SILFunction) : Prop :=
  length F' = length F
  ∧ ∀ b block, F !! b = Some block →
      ∃ block', F' !! b = Some block'
        ∧ terminator block' = terminator block
        ∧ otherInsts block' = otherInsts block
        ∧ ∀ v, endingsInBlock v block ≤ endingsInBlock v block'.

(** The blocks whose terminator is not an unreachable are those of [F],
    untouched. *)
Definition leakyBlocksKept (F F' : SILFunction) : Prop :=
  length F' = length F
  ∧ ∀ b block, F !! b = Some block →
      ∃ block', F' !! b = Some block'
        ∧ terminator block' = terminator block
        ∧ (isDeadEnd (terminator block) = false → block' = block).

End Engine.
End OSSALifetimeCompletion.

(** ** The fixup before an unreachable region is deleted *)

Definition Position_code (p : Position) : nat * nat := (posBlock p, posIndex p).

Definition Position_decode (c : nat * nat) : Position := mkPosition c.1 c.2.

#[global] Instance Position_countable : Countable Position.
Proof.
  apply (inj_countable' Position_code Position_decode).
  intros [b i]. reflexivity.
Defined.

Definition instructionAt (F : SILFunction) (pos : Position)
    : option SILInstruction :=
  block ← F !! posBlock pos; insts block !! posIndex pos.

Module UnreachableLifetimeCompletion.
Section Fixup.
Context `{Collaborators}.

(** The fields of the class, lines 142-151 of the header. *)
Record t := mk {
  function : SILFunction;
  domInfo : option DominanceInfo;
  unreachableBlocks : list nat;
  unreachableInsts : gset Position;
  incompleteValues : list SILValue;
  updatingLifetimes : bool
}.

(** [UnreachableLifetimeCompletion(function, domInfo)]: the initialiser
    list leaves the member [domInfo] at its default, [nullptr]. *)
Definition new (function : SILFunction) (domInfo : option DominanceInfo) : t :=
  mk function None [] ∅ [] false.

(** [visitUnreachableBlock(block)], lines 165-167 of the header. *)
Definition visitUnreachableBlock (self : t) (block : nat) : t :=
  mk (function self) (domInfo self)
     (SetVector_insert block (unreachableBlocks self))
     (unreachableInsts self) (incompleteValues self) (updatingLifetimes self).

(** Modelled from the spec: the body of [visitUnreachableInst], which the
    header only declares.  A lifetime-ending instruction has its value
    recorded; the instruction itself is recorded unless its whole block
    already is. *)
Definition visitUnreachableInst (self : t) (instruction : Position) : t :=
  match instructionAt (function self) instruction with
  | Some (EndLifetime value) =>
      mk (function self) (domInfo self) (unreachableBlocks self)
         (if decide (posBlock instruction ∈ unreachableBlocks self)
          then unreachableInsts self
          else {[instruction]} ∪ unreachableInsts self)
         (SetVector_insert value (incompleteValues self))
         (updatingLifetimes self)
  | _ => self
  end.

(** Modelled from the spec: a recorded value is completed only when it is
    defined outside the unreachable region. *)
Definition definedOutside (self : t) (value : SILValue) : bool :=
  forallb (λ b, negb (definedIn (function self) value b))
          (unreachableBlocks self).

(** Modelled from the spec: the completions [completeLifetimes] runs, on
    one engine; the flag tells whether one of them returned
    [WasCompleted]. *)
Fixpoint completeRecorded (fuel : nat) (values : list SILValue)
    (completion : OSSALifetimeCompletion.t)
    : option (bool * OSSALifetimeCompletion.t) :=
  match values with
  | [] => Some (false, completion)
  | value :: rest =>
      match
        OSSALifetimeCompletion.completeOSSALifetime fuel value
          (OSSALifetimeCompletion.defaultBoundary value) completion
      with
      | None => None
      | Some (r, completion') =>
          match completeRecorded fuel rest completion' with
          | None => None
          | Some (changed, completion'') =>
              Some (bool_decide (r = WasCompleted) || changed, completion'')
          end
      end
  end.

(** Modelled from the spec: the body of [completeLifetimes], which the
    header only declares.  The object leaves the collecting state
    ([updatingLifetimes] is set), every recorded value defined outside the
    region is completed by a fresh engine, along the boundary chosen from
    the value, and the result tells whether an ending was inserted. *)
Definition completeLifetimes (fuel : nat) (self : t) : option (bool * t) :=
  match
    completeRecorded fuel
      (filter (λ value, definedOutside self value = true) (incompleteValues self))
      (OSSALifetimeCompletion.new (function self) (domInfo self))
  with
  | None => None
  | Some (changed, completion) =>
      Some (changed,
            mk (OSSALifetimeCompletion.function completion) (domInfo self)
               (unreachableBlocks self) (unreachableInsts self)
               (incompleteValues self) true)
  end.

(** The single-use discipline written as a check: a call on an object
    that has left the collecting state is a fault, [None]. *)
Definition visitUnreachableBlock_checked (self : t) (block : nat) : option t :=
  if updatingLifetimes self then None
  else Some (visitUnreachableBlock self block).

End Fixup.
End UnreachableLifetimeCompletion.

(** ** A concrete function

    The scenario of the spec: [Entry -> A -> Exit] and [Entry -> B], where
    [B] is a dead end.  The owned, lexical value [x] is defined in [Entry]
    and last used in [A]; [borrow] is a local borrow scope nested under
    [x]; [argument] is a guaranteed function argument, a borrow introducer
    that is not locally scoped. *)
Module Scenario.

Definition x : SILValue := mkValue 0 OwnOwned true.
Definition borrow : SILValue :=
  mkValue 1 (OwnGuaranteed (Some (mkBorrowedValue true))) false.
Definition argument : SILValue :=
  mkValue 2 (OwnGuaranteed (Some (mkBorrowedValue false))) false.
Definition trivial : SILValue := mkValue 3 OwnNone false.
Definition projection : SILValue := mkValue 4 (OwnGuaranteed None) false.

Definition Entry : nat := 0.
Definition A : nat := 1.
Definition Exit : nat := 2.
Definition B : nat := 3.

Definition body : SILFunction :=
  [ mkBlock [Define argument; Define x; Define borrow] (BranchInst [A; B]);
    mkBlock [Use borrow; Use x] (BranchInst [Exit]);
    mkBlock [] ReturnInst;
    mkBlock [OtherInst] UnreachableInst ].

(** Index just behind the last use of [v] in a block, if it has one. *)
Fixpoint afterLastUse (v : SILValue) (l : list SILInstruction) : option nat :=
  match l with
  | [] => None
  | i :: rest =>
      match afterLastUse v rest with
      | Some n => Some (S n)
      | None => if decide (i = Use v) then Some 1 else None
      end
  end.

(** The oracle of the scenario: the liveness of a value is the list of
    points just behind its last use in each block that uses it. *)
Definition lastUses (F : SILFunction) (v : SILValue) : list Position :=
  omap (λ '(b, block), mkPosition b <$> afterLastUse v (insts block))
       (imap pair F).

(** In the scenario the availability boundary of a value is made of the
    blocks that leave the function, [Exit] and [B], unless the block ends
    the value itself. *)
Definition leavingBlocks (F : SILFunction) (v : SILValue) : list nat :=
  omap (λ '(b, block),
          match terminator block with
          | BranchInst _ => None
          | _ => if decide (EndLifetime v ∈ insts block) then None else Some b
          end)
       (imap pair F).

#[export] Instance collaborators : Collaborators := {|
  DominanceInfo := unit;
  SSAPrunedLiveness := list Position;
  computeLiveness := λ _ F v, lastUses F v;
  livenessBoundary := λ _ liveness, liveness;
  availabilityBoundaryBlocks := λ F v _, leavingBlocks F v;
  innerBorrowScopes := λ v, if decide (v = x) then [borrow] else []
|}.

Definition values : gset SILValue :=
  {[ x; borrow; argument; trivial; projection ]}.

Definition engine : OSSALifetimeCompletion.t :=
  OSSALifetimeCompletion.new body None.


(** The same blocks when [borrow] and [x] are ended in the dead end [B]
    only; [B] is the region about to be deleted. *)
Definition regionBody : SILFunction :=
  [ mkBlock [Define x; Define borrow] (BranchInst [A; B]);
    mkBlock [Use borrow; Use x] (BranchInst [Exit]);
    mkBlock [] ReturnInst;
    mkBlock [EndLifetime borrow; EndLifetime x] UnreachableInst ].

Definition collecting : UnreachableLifetimeCompletion.t :=
  UnreachableLifetimeCompletion.visitUnreachableBlock
    (UnreachableLifetimeCompletion.visitUnreachableInst
       (UnreachableLifetimeCompletion.visitUnreachableInst
          (UnreachableLifetimeCompletion.new regionBody None)
          (mkPosition B 0))
       (mkPosition B 1))
    B.

(** The calls of the idempotence example. *)
Definition calls : list (SILValue * Boundary) :=
  [ (x, Liveness); (borrow, Availability); (x, Availability);
    (trivial, Liveness); (x, AvailabilityWithLeaks) ].

End Scenario.

(** ** Printing a boundary *)

From stdpp Require Import strings.

(** [Boundary::Value], lines 69-73 of the header: an enumeration stored in
    a [uint8_t], whose enumerators are 0, 1 and 2.  A [Boundary] holds such
    a byte, and the byte need not be an enumerator. *)
Definition Boundary_Value (boundary : Boundary) : Z :=
  match boundary with
  | Liveness => 0
  | Availability => 1
  | AvailabilityWithLeaks => 2
  end%Z.

(** [operator<<(OS, boundary)], lines 174-188 of the header, on the byte
    the [Boundary] holds.  The stream is the text written to it so far; the
    switch has a case for each enumerator and no default, so for any other
    byte nothing is written; the operator returns the stream. *)
Definition Boundary_print (OS : string) (value : Z) : string :=
  if decide (value = 0%Z) then (OS +:+ "liveness")%string
  else if decide (value = 1%Z) then (OS +:+ "availability")%string
  else if decide (value = 2%Z) then (OS +:+ "availability_with_leaks")%string
  else OS.

(** ** Runs of calls *)

Section Runs.
Context `{Collaborators}.

(** The engine a sequence of calls of [completeOSSALifetime] ends with. *)
Definition lastEngine (self : OSSALifetimeCompletion.t)
    (results : list (LifetimeCompletion * OSSALifetimeCompletion.t))
    : OSSALifetimeCompletion.t :=
  foldl (λ _ rs, rs.2) self results.

(** A value on which a call has nothing left to do: it has no local
    lifetime, or it is settled. *)
Definition quiet (value : SILValue) (self : OSSALifetimeCompletion.t) : Prop :=
  OSSALifetimeCompletion.hasNoLocalLifetime value
  ∨ OSSALifetimeCompletion.settled value self.

(** [visitUnreachableBlock] on each block of a list, in order. *)
Definition visitUnreachableBlocks (self : UnreachableLifetimeCompletion.t)
    (blocks : list nat) : UnreachableLifetimeCompletion.t :=
  foldl UnreachableLifetimeCompletion.visitUnreachableBlock self blocks.

End Runs.

(** * Properties *)

Import OSSALifetimeCompletion.

(** ** Insertion *)

Lemma endingsInBlock_insertInBlock v value index block :
  endingsInBlock v block ≤ endingsInBlock v (insertInBlock value index block).
Proof.
  unfold endingsInBlock, insertInBlock; simpl.
  rewrite <- (take_drop index (insts block)) at 1.
  rewrite !filter_app, filter_cons, !length_app.
  case_decide; simpl; lia.
Qed.

Lemma otherInsts_insertInBlock value index block :
  otherInsts (insertInBlock value index block) = otherInsts block.
Proof.
  unfold otherInsts, insertInBlock; simpl.
  rewrite <- (take_drop index (insts block)) at 3.
  by rewrite !filter_app, filter_cons.
Qed.

Lemma insertedInto_refl F : insertedInto F F.
Proof. split; [done|]. intros b block Hb. exists block. auto. Qed.

Lemma insertedInto_trans F1 F2 F3 :
  insertedInto F1 F2 → insertedInto F2 F3 → insertedInto F1 F3.
Proof.
  intros [Hlen12 H12] [Hlen23 H23]. split; [congruence|].
  intros b block Hb.
  destruct (H12 b block Hb) as (block2 & Hb2 & Hterm2 & Hother2 & Hends2).
  destruct (H23 b block2 Hb2) as (block3 & Hb3 & Hterm3 & Hother3 & Hends3).
  exists block3. split; [done|]. split; [congruence|]. split; [congruence|].
  intros v. specialize (Hends2 v). specialize (Hends3 v). lia.
Qed.

Lemma insertedInto_insertLifetimeEnd value F pos :
  insertedInto F (insertLifetimeEnd value F pos).
Proof.
  unfold insertLifetimeEnd. split; [apply length_alter|].
  intros b block Hb.
  destruct (decide (posBlock pos = b)) as [<-|Hne].
  - exists (insertInBlock value (posIndex pos) block).
    rewrite list_lookup_alter_eq, Hb. simpl.
    split; [done|]. split; [done|].
    split; [apply otherInsts_insertInBlock|].
    intros v. apply endingsInBlock_insertInBlock.
  - exists block. rewrite list_lookup_alter_ne by done. auto.
Qed.

Lemma insertedInto_foldl value ends F :
  insertedInto F (foldl (insertLifetimeEnd value) F ends).
Proof.
  revert F. induction ends as [|pos ends IH]; intros F; simpl.
  - apply insertedInto_refl.
  - eapply insertedInto_trans; [apply insertedInto_insertLifetimeEnd|apply IH].
Qed.

Lemma endingsInBlock_insertInBlock_same value index block :
  endingsInBlock value (insertInBlock value index block)
  = S (endingsInBlock value block).
Proof.
  unfold endingsInBlock, insertInBlock; simpl.
  rewrite <- (take_drop index (insts block)) at 3.
  rewrite !filter_app, filter_cons, !length_app.
  rewrite decide_True by (unfold isEndOf; by apply bool_decide_eq_true).
  simpl. lia.
Qed.

(** Every point of [ends] gains an ending in its block. *)
Lemma foldl_insertLifetimeEnd_gains value ends :
  ∀ F pos block,
    pos ∈ ends → F !! posBlock pos = Some block →
    ∃ block',
      foldl (insertLifetimeEnd value) F ends !! posBlock pos = Some block'
      ∧ endingsInBlock value block < endingsInBlock value block'.
Proof.
  induction ends as [|p ends IH]; intros F pos block Hin Hblock.
  - by apply not_elem_of_nil in Hin.
  - simpl. apply elem_of_cons in Hin as [->|Hin].
    + pose proof (insertedInto_foldl value ends (insertLifetimeEnd value F p))
        as [_ Hkept].
      destruct (Hkept (posBlock p) (insertInBlock value (posIndex p) block))
        as (block' & Hblock' & _ & _ & Hends).
      { unfold insertLifetimeEnd. by rewrite list_lookup_alter_eq, Hblock. }
      exists block'. split; [done|]. specialize (Hends value).
      rewrite endingsInBlock_insertInBlock_same in Hends. lia.
    + destruct (proj2 (insertedInto_insertLifetimeEnd value F p)
                  (posBlock pos) block Hblock)
        as (block1 & Hblock1 & _ & _ & Hends1).
      destruct (IH _ pos block1 Hin Hblock1) as (block' & Hblock' & Hgain).
      exists block'. split; [done|]. specialize (Hends1 value). lia.
Qed.









Lemma leakyBlocksKept_refl F : leakyBlocksKept F F.
Proof. split; [done|]. intros b block Hb. exists block. auto. Qed.

Lemma leakyBlocksKept_trans F1 F2 F3 :
  leakyBlocksKept F1 F2 → leakyBlocksKept F2 F3 → leakyBlocksKept F1 F3.
Proof.
  intros [Hlen12 H12] [Hlen23 H23]. split; [congruence|].
  intros b block Hb.
  destruct (H12 b block Hb) as (block2 & Hb2 & Hterm2 & Hkept2).
  destruct (H23 b block2 Hb2) as (block3 & Hb3 & Hterm3 & Hkept3).
  exists block3. split; [done|]. split; [congruence|].
  intros Hleaky. rewrite Hkept3, Hkept2; [done..|].
  rewrite Hterm2. done.
Qed.

Lemma leakyBlocksKept_terminator F F' b block' :
  leakyBlocksKept F F' → F' !! b = Some block' →
  ∃ block, F !! b = Some block ∧ terminator block' = terminator block.
Proof.
  intros [Hlen Hkept] Hb'.
  assert (is_Some (F !! b)) as [block Hb].
  { apply lookup_lt_is_Some. rewrite <- Hlen. by eapply lookup_lt_Some. }
  destruct (Hkept b block Hb) as (block2 & Hb2 & Hterm & _).
  exists block. split; [done|]. congruence.
Qed.

Lemma leakyBlocksKept_insertLifetimeEnd value F pos :
  (∀ block, F !! posBlock pos = Some block → isDeadEnd (terminator block) = true) →
  leakyBlocksKept F (insertLifetimeEnd value F pos).
Proof.
  intros Hdead. unfold insertLifetimeEnd. split; [apply length_alter|].
  intros b block Hb.
  destruct (decide (posBlock pos = b)) as [<-|Hne].
  - exists (insertInBlock value (posIndex pos) block).
    rewrite list_lookup_alter_eq, Hb. simpl.
    split; [done|]. split; [done|].
    intros Hleaky. rewrite (Hdead block Hb) in Hleaky. done.
  - exists block. rewrite list_lookup_alter_ne by done. auto.
Qed.

Lemma leakyBlocksKept_foldl value ends F :
  (∀ pos block, pos ∈ ends → F !! posBlock pos = Some block →
     isDeadEnd (terminator block) = true) →
  leakyBlocksKept F (foldl (insertLifetimeEnd value) F ends).
Proof.
  revert F. induction ends as [|pos ends IH]; intros F Hdead; simpl.
  - apply leakyBlocksKept_refl.
  - assert (leakyBlocksKept F (insertLifetimeEnd value F pos)) as Hfirst.
    { apply leakyBlocksKept_insertLifetimeEnd. intros block Hb.
      eapply Hdead; [left|done]. }
    eapply leakyBlocksKept_trans; [exact Hfirst|]. apply IH.
    intros pos' block' Hin Hb'.
    destruct (leakyBlocksKept_terminator _ _ _ _ Hfirst Hb')
      as (block & Hb & ->).
    eapply Hdead; [right; exact Hin|exact Hb].
Qed.

(** ** The availability boundary *)

Section Properties.
Context `{Collaborators}.

Lemma visitAvailabilityBoundary_elem value allowLeaks liveness F pos :
  pos ∈ visitAvailabilityBoundary value allowLeaks liveness F ↔
  ∃ b block,
    b ∈ availabilityBoundaryBlocks F value liveness
    ∧ F !! b = Some block
    ∧ (AllowLeaks_bool allowLeaks = true → isDeadEnd (terminator block) = true)
    ∧ pos = terminatorPosition b block.
Proof.
  unfold visitAvailabilityBoundary. rewrite list_elem_of_bind. split.
  - intros (b & Hpos & Hb). destruct (F !! b) as [block|] eqn:Hblock.
    + destruct (AllowLeaks_bool allowLeaks) eqn:Hleaks,
        (isDeadEnd (terminator block)) eqn:Hdead; simpl in Hpos;
        try (by apply not_elem_of_nil in Hpos);
        apply list_elem_of_singleton in Hpos; exists b, block; auto.
      split; [done|]. split; [done|]. split; [done|done].
    + by apply not_elem_of_nil in Hpos.
  - intros (b & block & Hb & Hblock & Hdead & ->). exists b. split; [|done].
    rewrite Hblock.
    destruct (AllowLeaks_bool allowLeaks) eqn:Hleaks; simpl.
    + rewrite Hdead by done. simpl. apply list_elem_of_singleton. done.
    + apply list_elem_of_singleton. done.
Qed.

End Properties.

(** ** The steps of the engine *)

Section Steps.
Context `{Collaborators}.

Lemma step_completedValues boundary self self' :
  step boundary self self' → completedValues self ⊆ completedValues self'.
Proof. destruct 1; simpl; set_solver. Qed.

Lemma step_domInfo boundary self self' :
  step boundary self self' → domInfo self' = domInfo self.
Proof. by destruct 1. Qed.

Lemma step_entered boundary self self' value :
  step boundary self self' → value ∈ completedValues self' →
  value ∈ completedValues self ∨ hasLocalLifetime value.
Proof.
  destruct 1 as [self w Hlocal Hfresh|self w Hlocal Hin]; simpl; intros Hv.
  - apply elem_of_union in Hv as [Hv%elem_of_singleton|Hv]; subst; auto.
  - auto.
Qed.


Lemma step_leakyBlocksKept self self' :
  step AvailabilityWithLeaks self self' →
  leakyBlocksKept (function self) (function self').
Proof.
  inversion 1 as [s w Hlocal Hfresh|s w Hlocal Hin]; subst; simpl.
  - apply leakyBlocksKept_refl.
  - apply leakyBlocksKept_foldl. intros pos block Hpos Hblock.
    apply visitAvailabilityBoundary_elem in Hpos
      as (b & block' & _ & Hblock' & Hdead & ->).
    simpl in Hblock. rewrite Hblock' in Hblock. injection Hblock as <-.
    by apply Hdead.
Qed.

Lemma steps_completedValues boundary self self' :
  rtc (step boundary) self self' → completedValues self ⊆ completedValues self'.
Proof.
  induction 1 as [|s1 s2 s3 Hstep _ IH]; [done|].
  etrans; [by eapply step_completedValues|done].
Qed.

Lemma steps_domInfo boundary self self' :
  rtc (step boundary) self self' → domInfo self' = domInfo self.
Proof.
  induction 1 as [|s1 s2 s3 Hstep _ IH]; [done|].
  rewrite IH. by eapply step_domInfo.
Qed.

Lemma steps_entered boundary self self' value :
  rtc (step boundary) self self' → value ∈ completedValues self' →
  value ∈ completedValues self ∨ hasLocalLifetime value.
Proof.
  induction 1 as [|s1 s2 s3 Hstep _ IH]; [auto|]. intros Hv.
  destruct (IH Hv) as [Hv2|]; [|auto]. by eapply step_entered.
Qed.


Lemma steps_leakyBlocksKept self self' :
  rtc (step AvailabilityWithLeaks) self self' →
  leakyBlocksKept (function self) (function self').
Proof.
  induction 1 as [|s1 s2 s3 Hstep _ IH]; [apply leakyBlocksKept_refl|].
  eapply leakyBlocksKept_trans; [by apply step_leakyBlocksKept|done].
Qed.

(** The four early returns of [completeOSSALifetime] and the call of
    [analyzeAndUpdateLifetime], by the attributes of the value. *)
Lemma completeOSSALifetime_cases fuel value boundary self :
  (getOwnershipKind value = OwnershipKind.None
   ∧ completeOSSALifetime (S fuel) value boundary self = Some (NoLifetime, self))
  ∨ (getOwnershipKind value = OwnershipKind.Guaranteed
     ∧ BorrowedValue value = None
     ∧ completeOSSALifetime (S fuel) value boundary self = Some (NoLifetime, self))
  ∨ (getOwnershipKind value = OwnershipKind.Guaranteed
     ∧ (∃ borrowedValue, BorrowedValue value = Some borrowedValue
                         ∧ isLocalScope borrowedValue = false)
     ∧ completeOSSALifetime (S fuel) value boundary self
       = Some (AlreadyComplete, self))
  ∨ (hasLocalLifetime value
     ∧ value ∈ completedValues self
     ∧ completeOSSALifetime (S fuel) value boundary self
       = Some (AlreadyComplete, self))
  ∨ (hasLocalLifetime value
     ∧ (value ∉ completedValues self)
     ∧ completeOSSALifetime (S fuel) value boundary self
       = match
           analyzeAndUpdateLifetime (completeOSSALifetime fuel) value boundary
             (mk (domInfo self) ({[value]} ∪ completedValues self) (function self))
         with
         | None => None
         | Some (changed, self') =>
             Some (if changed : bool then WasCompleted else AlreadyComplete, self')
         end).
Proof.
  destruct value as [id [| |[[[|]]|]] lexical]; simpl;
    unfold hasLocalLifetime, ValueSet_insert; simpl.
  - left. done.
  - do 3 right. destruct (decide (_ ∈ completedValues self)); simpl.
    + left. auto.
    + right. auto.
  - do 3 right. destruct (decide (_ ∈ completedValues self)); simpl.
    + left. split; [right; by eexists|]. auto.
    + right. split; [right; by eexists|]. auto.
  - right. right. left. split; [done|]. split; [by eexists|done].
  - right. left. done.
Qed.

Lemma completeInnerScopes_steps recurse boundary inner :
  (∀ value self r self',
      value ∈ inner → recurse value boundary self = Some (r, self') →
      rtc (step boundary) self self') →
  ∀ self self',
    completeInnerScopes recurse boundary inner self = Some self' →
    rtc (step boundary) self self'.
Proof.
  induction inner as [|value rest IH]; intros Hrecurse self self'; simpl.
  - intros [= <-]. done.
  - destruct (recurse value boundary self) as [[r self1]|] eqn:Hcall; [|done].
    intros Hrest. etrans.
    + eapply Hrecurse; [left|exact Hcall].
    + apply IH; [|done]. intros w s r' s' Hw. apply Hrecurse. by right.
Qed.

Lemma analyzeAndUpdateLifetime_steps recurse value boundary self changed self' :
  (∀ w s r s',
      w ∈ innerBorrowScopes value → recurse w boundary s = Some (r, s') →
      rtc (step boundary) s s') →
  hasLocalLifetime value →
  value ∈ completedValues self →
  analyzeAndUpdateLifetime recurse value boundary self = Some (changed, self') →
  rtc (step boundary) self self'.
Proof.
  intros Hrecurse Hlocal Hin. unfold analyzeAndUpdateLifetime.
  destruct (completeInnerScopes _ _ _ _) as [self1|] eqn:Hinner; [|done].
  intros [= _ <-].
  pose proof (completeInnerScopes_steps _ _ _ Hrecurse _ _ Hinner) as Hsteps.
  eapply rtc_r; [exact Hsteps|].
  apply step_ends; [done|]. by eapply steps_completedValues.
Qed.

(** What a call does to the engine is a sequence of steps. *)
Lemma completeOSSALifetime_steps fuel value boundary self r self' :
  completeOSSALifetime fuel value boundary self = Some (r, self') →
  rtc (step boundary) self self'.
Proof.
  revert value self r self'.
  induction fuel as [|fuel IH]; intros value self r self'; [done|].
  destruct (completeOSSALifetime_cases fuel value boundary self)
    as [[_ ->]|[(_ & _ & ->)|[(_ & _ & ->)|[(_ & _ & ->)|(Hlocal & Hfresh & ->)]]]];
    try (intros [= _ <-]; done).
  destruct (analyzeAndUpdateLifetime _ _ _ _) as [[changed self1]|] eqn:Hrun;
    [|done].
  intros [= _ <-]. eapply rtc_l; [by apply step_insert|].
  eapply analyzeAndUpdateLifetime_steps; [|exact Hlocal| |exact Hrun].
  - intros w s r' s' _. apply IH.
  - simpl. set_solver.
Qed.



End Steps.

(** ** Termination *)

Lemma remaining_le (values C C' : gset SILValue) :
  C ⊆ C' → size (values ∖ C') ≤ size (values ∖ C).
Proof.
  intros HC. apply subseteq_size.
  intros v [Hv Hfresh]%elem_of_difference. apply elem_of_difference.
  split; [done|]. intros Hin. apply Hfresh, HC, Hin.
Qed.

Lemma remaining_lt (values C : gset SILValue) value :
  value ∈ values → value ∉ C →
  size (values ∖ ({[value]} ∪ C)) < size (values ∖ C).
Proof.
  intros Hin Hfresh. apply subset_size. split.
  - intros v [Hv Hnew]%elem_of_difference. apply elem_of_difference.
    split; [done|]. intros HvC. apply Hnew, elem_of_union. by right.
  - intros Hsub.
    assert (value ∈ values ∖ C) as Hvalue by (by apply elem_of_difference).
    apply Hsub, elem_of_difference in Hvalue as [_ Hnew].
    apply Hnew, elem_of_union. left. by apply elem_of_singleton.
Qed.

Section Termination.
Context `{Collaborators}.

(** The values of the function: the scopes nested under a value are
    among them. *)
Variable values : gset SILValue.
Hypothesis innerBorrowScopes_values :
  ∀ v w, w ∈ innerBorrowScopes v → w ∈ values.

Lemma completeInnerScopes_total fuel boundary inner :
  (∀ value self,
      value ∈ values → size (values ∖ completedValues self) < fuel →
      is_Some (completeOSSALifetime fuel value boundary self)) →
  (∀ w, w ∈ inner → w ∈ values) →
  ∀ self,
    size (values ∖ completedValues self) < fuel →
    is_Some (completeInnerScopes (completeOSSALifetime fuel) boundary inner self).
Proof using Type.
  intros IH. induction inner as [|w rest IHrest]; intros Hinner self Hsize; simpl.
  - by eexists.
  - destruct (IH w self) as [[r self1] Hcall]; [apply Hinner; left|done|].
    rewrite Hcall. apply IHrest.
    + intros w' Hw'. apply Hinner. by right.
    + apply completeOSSALifetime_steps, steps_completedValues in Hcall.
      pose proof (remaining_le values _ _ Hcall). lia.
Qed.

(** With more fuel than there are values left to enter [completedValues],
    a call returns. *)
Lemma completeOSSALifetime_total fuel value boundary self :
  value ∈ values →
  size (values ∖ completedValues self) < fuel →
  is_Some (completeOSSALifetime fuel value boundary self).
Proof using innerBorrowScopes_values.
  revert value self. induction fuel as [|fuel IH]; intros value self Hin Hsize;
    [lia|].
  destruct (completeOSSALifetime_cases fuel value boundary self)
    as [[_ ->]|[(_ & _ & ->)|[(_ & _ & ->)|[(_ & _ & ->)|(Hlocal & Hfresh & ->)]]]];
    try by eexists.
  unfold analyzeAndUpdateLifetime.
  destruct (completeInnerScopes_total fuel boundary (innerBorrowScopes value))
    with (self := mk (domInfo self) ({[value]} ∪ completedValues self) (function self))
    as [self1 ->].
  - intros w s Hw Hs. by apply IH.
  - intros w. apply innerBorrowScopes_values.
  - simpl. pose proof (remaining_lt values _ _ Hin Hfresh). lia.
  - by eexists.
Qed.

(** A sequence of calls on values of the function returns as well. *)
Lemma completeAll_total fuel calls :
  (∀ value boundary, (value, boundary) ∈ calls → value ∈ values) →
  ∀ self,
    size (values ∖ completedValues self) < fuel →
    is_Some (completeAll fuel calls self).
Proof using innerBorrowScopes_values.
  induction calls as [|[w b] rest IH]; intros Hcalls self Hsize; simpl.
  - by eexists.
  - destruct (completeOSSALifetime_total fuel w b self) as [[r self1] Hcall];
      [by eapply Hcalls; left|done|].
    rewrite Hcall. destruct (IH (λ v b' Hin, Hcalls v b' (list_elem_of_further _ _ _ Hin)) self1)
      as [results ->]; [|by eexists].
    apply completeOSSALifetime_steps, steps_completedValues in Hcall.
    pose proof (remaining_le values _ _ Hcall). lia.
Qed.

End Termination.

(** ** The dispatch of [completeOSSALifetime] *)

Section Dispatch.
Context `{Collaborators}.

(** C2.  The early returns of [completeOSSALifetime]: a value of kind None
    gives [NoLifetime]; a value that is not owned and is not a borrow
    introducer gives [NoLifetime]; a borrow introducer that is not locally
    scoped gives [AlreadyComplete].  In each case the engine comes back as
    it was: nothing is inserted in the function and [completedValues] is
    not touched. *)
Theorem completeOSSALifetime_dispatch fuel value boundary self :
  (getOwnershipKind value = OwnershipKind.None →
   completeOSSALifetime (S fuel) value boundary self = Some (NoLifetime, self))
  ∧ (getOwnershipKind value ≠ OwnershipKind.Owned →
     BorrowedValue value = None →
     completeOSSALifetime (S fuel) value boundary self = Some (NoLifetime, self))
  ∧ (∀ borrowedValue,
       BorrowedValue value = Some borrowedValue →
       isLocalScope borrowedValue = false →
       completeOSSALifetime (S fuel) value boundary self
       = Some (AlreadyComplete, self)).
Proof.
  destruct value as [id [| |[[[|]]|]] lexical]; cbn;
    repeat split; try done; intros; cbn in *; by simplify_eq.
Qed.

(** C9.  On an owned value [completeOSSALifetime] never returns
    [NoLifetime], whatever the boundary: every result is [AlreadyComplete]
    or [WasCompleted], and with more fuel than there are values of the
    function outside [completedValues] there is a result. *)
Theorem completeOSSALifetime_owned (values : gset SILValue) value boundary self :
  getOwnershipKind value = OwnershipKind.Owned →
  (∀ v w, w ∈ innerBorrowScopes v → w ∈ values) →
  value ∈ values →
  (∀ fuel r self',
      completeOSSALifetime fuel value boundary self = Some (r, self') →
      r = AlreadyComplete ∨ r = WasCompleted)
  ∧ (∀ fuel,
       size (values ∖ completedValues self) < fuel →
       ∃ r self',
         completeOSSALifetime fuel value boundary self = Some (r, self')
         ∧ (r = AlreadyComplete ∨ r = WasCompleted)).
Proof.
  intros Hkind Hvalues Hin.
  assert (∀ fuel r self',
    completeOSSALifetime fuel value boundary self = Some (r, self') →
    r = AlreadyComplete ∨ r = WasCompleted) as Hresult.
  { intros [|fuel] r self'; [done|].
    destruct (completeOSSALifetime_cases fuel value boundary self)
      as [[Hk _]|[(Hk & _)|[(Hk & _)|[(_ & _ & ->)|(_ & _ & ->)]]]];
      try congruence.
    - intros [= <- _]. by left.
    - destruct (analyzeAndUpdateLifetime _ _ _ _) as [[[|] self1]|]; [| |done];
        intros [= <- _]; auto. }
  split; [exact Hresult|].
  intros fuel Hfuel.
  destruct (completeOSSALifetime_total values Hvalues fuel value boundary self)
    as [[r self'] Hcall]; [done..|].
  exists r, self'. split; [done|]. by eapply Hresult.
Qed.

End Dispatch.

(** ** The cache of completed values *)

Section Memo.
Context `{Collaborators}.

Lemma hasLocalLifetime_not_early value :
  hasLocalLifetime value → ¬ hasNoLocalLifetime value.
Proof.
  unfold hasLocalLifetime, hasNoLocalLifetime.
  destruct value as [id [| |[[[|]]|]] lexical]; cbn;
    intros [Hkind|(bv & Hbv & Hscope)]
           [Hnone|[[Hnot Hnobv]|(bv' & Hbv' & Hscope')]];
    by simplify_eq.
Qed.

Lemma settled_after fuel value boundary self r self' :
  completeOSSALifetime fuel value boundary self = Some (r, self') →
  r ≠ NoLifetime → settled value self'.
Proof.
  destruct fuel as [|fuel]; [done|].
  destruct (completeOSSALifetime_cases fuel value boundary self)
    as [[_ ->]|[(_ & _ & ->)|[(_ & Hscope & ->)|[(Hlocal & Hin & ->)
        |(Hlocal & Hfresh & ->)]]]];
    try (intros [= <- <-]; intros; try done).
  - by left.
  - by right.
  - destruct (analyzeAndUpdateLifetime _ _ _ _) as [[changed self1]|] eqn:Hrun;
      [|done].
    intros [= _ <-] _. right. split; [done|].
    eapply analyzeAndUpdateLifetime_steps in Hrun; [|  |done|].
    + apply steps_completedValues in Hrun. apply Hrun. simpl.
      apply elem_of_union. left. by apply elem_of_singleton.
    + intros w s r' s' _. apply completeOSSALifetime_steps.
    + simpl. apply elem_of_union. left. by apply elem_of_singleton.
Qed.

Lemma settled_kept fuel value w boundary self r self' :
  settled value self →
  completeOSSALifetime fuel w boundary self = Some (r, self') →
  settled value self'.
Proof.
  intros [Hscope|[Hlocal Hin]] Hcall; [by left|]. right. split; [done|].
  apply completeOSSALifetime_steps, steps_completedValues in Hcall. by apply Hcall.
Qed.

Lemma settled_call fuel value boundary self :
  settled value self →
  completeOSSALifetime (S fuel) value boundary self = Some (AlreadyComplete, self).
Proof.
  intros Hsettled.
  destruct (completeOSSALifetime_cases fuel value boundary self)
    as [[Hkind _]|[(Hkind & Hnone & _)|[(_ & _ & Hcall)|[(_ & _ & Hcall)
        |(Hlocal & Hfresh & _)]]]];
    try done.
  - destruct Hsettled as [(bv & Hbv & _)|[Hlocal _]].
    + destruct value as [id [| |[[[|]]|]] lexical]; by cbn in *.
    + destruct (hasLocalLifetime_not_early _ Hlocal). by left.
  - destruct Hsettled as [(bv & Hbv & _)|[Hlocal _]]; [congruence|].
    destruct (hasLocalLifetime_not_early _ Hlocal). right. left.
    split; [|done]. by rewrite Hkind.
  - destruct Hsettled as [Hscope|[_ Hin]]; [|done].
    destruct (hasLocalLifetime_not_early _ Hlocal). by do 2 right.
Qed.

Lemma completeAll_cons fuel value boundary rest self results :
  completeAll fuel ((value, boundary) :: rest) self = Some results →
  ∃ r self1 results',
    completeOSSALifetime fuel value boundary self = Some (r, self1)
    ∧ completeAll fuel rest self1 = Some results'
    ∧ results = (r, self1) :: results'.
Proof.
  simpl.
  destruct (completeOSSALifetime fuel value boundary self) as [[r self1]|];
    [|done].
  destruct (completeAll fuel rest self1) as [results'|] eqn:Hrest; [|done].
  intros [= <-]. by exists r, self1, results'.
Qed.

(** Once [value] is settled, each call on it returns [AlreadyComplete]
    and hands the engine back as it received it. *)
Lemma completeAll_settled fuel value calls :
  ∀ self results,
    settled value self →
    completeAll fuel calls self = Some results →
    ∀ j boundary r self',
      calls !! j = Some (value, boundary) →
      results !! j = Some (r, self') →
      r = AlreadyComplete
      ∧ Some self' = match j with
                     | 0 => Some self
                     | S k => snd <$> results !! k
                     end.
Proof.
  induction calls as [|[w b] rest IH]; intros self results Hsettled Hall
    j boundary r self' Hcall Hresult; [done|].
  apply completeAll_cons in Hall as (r1 & self1 & results' & Hfirst & Hrest & ->).
  destruct j as [|j]; simpl in *.
  - injection Hcall as -> ->. injection Hresult as -> ->.
    destruct fuel as [|fuel]; [done|].
    rewrite (settled_call fuel _ _ _ Hsettled) in Hfirst.
    by injection Hfirst as <- <-.
  - destruct (IH self1 results' (settled_kept _ _ _ _ _ _ _ Hsettled Hfirst)
                Hrest j boundary r self' Hcall Hresult) as [-> Hbefore].
    split; [done|]. rewrite Hbefore. by destruct j.
Qed.

Lemma wasCompletedCalls_cons value w b r self1 calls results :
  wasCompletedCalls value ((w, b) :: calls) ((r, self1) :: results)
  = (if decide (w = value ∧ r = WasCompleted) then 1 else 0)
    + wasCompletedCalls value calls results.
Proof.
  unfold wasCompletedCalls. simpl. rewrite filter_cons. simpl.
  by destruct (decide (w = value ∧ r = WasCompleted)).
Qed.

Lemma wasCompletedCalls_settled fuel value calls :
  ∀ self results,
    settled value self →
    completeAll fuel calls self = Some results →
    wasCompletedCalls value calls results = 0.
Proof.
  induction calls as [|[w b] rest IH]; intros self results Hsettled Hall.
  - injection Hall as <-. done.
  - apply completeAll_cons in Hall as (r1 & self1 & results' & Hfirst & Hrest & ->).
    rewrite wasCompletedCalls_cons.
    rewrite (IH self1 results' (settled_kept _ _ _ _ _ _ _ Hsettled Hfirst) Hrest).
    destruct (decide (w = value ∧ r1 = WasCompleted)) as [[-> ->]|]; [|done].
    destruct fuel as [|fuel]; [done|].
    rewrite (settled_call fuel _ _ _ Hsettled) in Hfirst. done.
Qed.

Lemma completeAll_completedValues_ok fuel calls :
  ∀ self results,
    completedValues_ok self →
    completeAll fuel calls self = Some results →
    ∀ r self', (r, self') ∈ results → completedValues_ok self'.
Proof.
  induction calls as [|[w b] rest IH]; intros self results Hok Hall r self' Hin.
  - injection Hall as <-. by apply not_elem_of_nil in Hin.
  - apply completeAll_cons in Hall as (r1 & self1 & results' & Hfirst & Hrest & ->).
    assert (completedValues_ok self1) as Hok1.
    { intros v Hv. apply completeOSSALifetime_steps in Hfirst.
      destruct (steps_entered _ _ _ _ Hfirst Hv); auto. }
    apply elem_of_cons in Hin as [[= -> ->]|Hin]; [done|].
    by eapply IH.
Qed.

(** C10.  [completedValues] only ever holds owned values and locally scoped
    borrow introducers: the set of a new engine is empty; a call keeps the
    invariant, and the values it enters have a local lifetime; a value of
    kind None, a value that is not owned and is not a borrow introducer, or
    a borrow introducer that is not locally scoped is in the set after a
    call only if it was there before; so every engine a sequence of calls
    on a new engine goes through satisfies the invariant. *)
Theorem completedValues_invariant :
  (∀ F dom, completedValues_ok (new F dom))
  ∧ (∀ fuel value boundary self r self',
       completeOSSALifetime fuel value boundary self = Some (r, self') →
       (completedValues_ok self → completedValues_ok self')
       ∧ (∀ w, w ∈ completedValues self' → w ∉ completedValues self →
               hasLocalLifetime w)
       ∧ (∀ w, hasNoLocalLifetime w → w ∈ completedValues self' →
               w ∈ completedValues self))
  ∧ (∀ fuel calls F dom results r self',
       completeAll fuel calls (new F dom) = Some results →
       (r, self') ∈ results →
       completedValues_ok self').
Proof.
  split; [|split].
  - intros F dom v Hv. by apply not_elem_of_empty in Hv.
  - intros fuel value boundary self r self' Hcall.
    apply completeOSSALifetime_steps in Hcall.
    split; [|split].
    + intros Hok w Hw. destruct (steps_entered _ _ _ _ Hcall Hw); auto.
    + intros w Hw Hfresh. by destruct (steps_entered _ _ _ _ Hcall Hw).
    + intros w Hearly Hw. destruct (steps_entered _ _ _ _ Hcall Hw) as [|Hlocal];
        [done|]. by destruct (hasLocalLifetime_not_early _ Hlocal).
  - intros fuel calls F dom results r self' Hall Hin.
    eapply completeAll_completedValues_ok; [|exact Hall|exact Hin].
    intros v Hv. by apply not_elem_of_empty in Hv.
Qed.

Lemma completeAll_settled_all fuel value calls :
  ∀ self results,
    settled value self →
    completeAll fuel calls self = Some results →
    ∀ k r self', results !! k = Some (r, self') → settled value self'.
Proof.
  induction calls as [|[w b] rest IH]; intros self results Hsettled Hall
    k r self' Hresult.
  - injection Hall as <-. done.
  - apply completeAll_cons in Hall as (r1 & self1 & results' & Hfirst & Hrest & ->).
    pose proof (settled_kept _ _ _ _ _ _ _ Hsettled Hfirst) as Hsettled1.
    destruct k as [|k]; simpl in Hresult.
    + by injection Hresult as <- <-.
    + by eapply (IH self1 results').
Qed.

(** After a call on [value] that returned anything but [NoLifetime], the
    value is settled in every engine the sequence goes through. *)
Lemma completeAll_settled_later fuel value :
  ∀ i calls self results k bi ri si rk sk,
    completeAll fuel calls self = Some results →
    i ≤ k →
    calls !! i = Some (value, bi) →
    results !! i = Some (ri, si) →
    ri ≠ NoLifetime →
    results !! k = Some (rk, sk) →
    settled value sk.
Proof.
  induction i as [|i IH]; intros calls self results k bi ri si rk sk
    Hall Hik Hcalli Hresulti Hri Hresultk.
  - destruct calls as [|[w b] rest]; [done|].
    apply completeAll_cons in Hall as (r1 & self1 & results' & Hfirst & Hrest & ->).
    simpl in *. injection Hcalli as -> ->. injection Hresulti as -> ->.
    pose proof (settled_after _ _ _ _ _ _ Hfirst Hri) as Hsettled.
    destruct k as [|k]; simpl in Hresultk.
    + by injection Hresultk as <- <-.
    + by eapply (completeAll_settled_all fuel value rest si results').
  - destruct calls as [|[w b] rest]; [done|].
    apply completeAll_cons in Hall as (r1 & self1 & results' & Hfirst & Hrest & ->).
    destruct k as [|k]; [lia|]. simpl in *.
    eapply (IH rest self1 results' k); eauto. lia.
Qed.

(** C3.  [completeOSSALifetime] is idempotent on one engine.  In any
    sequence of calls, with any boundaries and with calls on other values
    in between, at most one call on [value] returns [WasCompleted]; after a
    call on [value] that returned [WasCompleted] (or anything but
    [NoLifetime]), every later call on [value] returns [AlreadyComplete]
    and leaves the engine, its function included, exactly as the call
    before it left it; and on every engine the sequence goes through from
    then on, a call on [value], with any boundary, does return, with
    [AlreadyComplete] and the engine unchanged. *)
Theorem completeOSSALifetime_idempotent fuel calls self results value :
  completeAll fuel calls self = Some results →
  wasCompletedCalls value calls results ≤ 1
  ∧ (∀ i k bi ri si bk rk sk before,
      i ≤ k →
      calls !! i = Some (value, bi) →
      results !! i = Some (ri, si) →
      ri ≠ NoLifetime →
      calls !! (S k) = Some (value, bk) →
      results !! (S k) = Some (rk, sk) →
      results !! k = Some before →
      rk = AlreadyComplete ∧ sk = before.2)
  ∧ (∀ i k bi ri si rk sk,
      i ≤ k →
      calls !! i = Some (value, bi) →
      results !! i = Some (ri, si) →
      ri ≠ NoLifetime →
      results !! k = Some (rk, sk) →
      ∀ fuel' boundary,
        completeOSSALifetime (S fuel') value boundary sk
        = Some (AlreadyComplete, sk)).
Proof.
  intros Hall. split; [|split].
  - revert self results Hall.
    induction calls as [|[w b] rest IH]; intros self results Hall.
    + injection Hall as <-. unfold wasCompletedCalls. simpl. lia.
    + apply completeAll_cons in Hall
        as (r1 & self1 & results' & Hfirst & Hrest & ->).
      rewrite wasCompletedCalls_cons.
      destruct (decide (w = value ∧ r1 = WasCompleted)) as [[-> ->]|].
      * rewrite (wasCompletedCalls_settled fuel value rest self1 results');
          [lia| |done].
        by eapply settled_after.
      * specialize (IH self1 results' Hrest). lia.
  - intros i. revert calls self results Hall.
    induction i as [|i IH]; intros calls self results Hall
      k bi ri si bk rk sk before Hik Hcalli Hresulti Hri Hcallk Hresultk Hbefore.
    + destruct calls as [|[w b] rest]; [done|].
      apply completeAll_cons in Hall
        as (r1 & self1 & results' & Hfirst & Hrest & ->).
      simpl in *. injection Hcalli as -> ->. injection Hresulti as -> ->.
      destruct (completeAll_settled fuel value rest si results'
                  (settled_after _ _ _ _ _ _ Hfirst Hri) Hrest
                  k bk rk sk Hcallk Hresultk) as [-> Hsk].
      split; [done|]. destruct k as [|k]; simpl in *.
      * injection Hbefore as <-. by injection Hsk.
      * rewrite Hbefore in Hsk. by injection Hsk.
    + destruct calls as [|[w b] rest]; [done|].
      apply completeAll_cons in Hall
        as (r1 & self1 & results' & Hfirst & Hrest & ->).
      destruct k as [|k]; [lia|]. simpl in *.
      eapply (IH rest self1 results' Hrest k); eauto. lia.
  - intros i k bi ri si rk sk Hik Hcalli Hresulti Hri Hresultk fuel' boundary.
    apply settled_call.
    by eapply (completeAll_settled_later fuel value i calls self results k).
Qed.

End Memo.

(** ** Paths are kept *)

Lemma insertedInto_lookup_None F F' b :
  insertedInto F F' → F !! b = None → F' !! b = None.
Proof.
  intros [Hlen _] Hb. apply lookup_ge_None. rewrite Hlen.
  by apply lookup_ge_None.
Qed.





Lemma insertedInto_endingsOnPath F F' v path :
  insertedInto F F' → endingsOnPath F v path ≤ endingsOnPath F' v path.
Proof.
  intros Hins. induction path as [|b rest IH]; simpl; [done|].
  destruct (F !! b) as [block|] eqn:Hb.
  - destruct (proj2 Hins b block Hb) as (block' & -> & _ & _ & Hends). simpl.
    specialize (Hends v). lia.
  - rewrite (insertedInto_lookup_None F F' b Hins Hb). simpl. lia.
Qed.

(** ** What a return of [completeOSSALifetime] says about paths *)

Section Completeness.
Context `{Collaborators}.


(** C4.  Under [AvailabilityWithLeaks] no point of the availability
    boundary is visited in a block whose terminator is not an unreachable,
    and a call of [completeOSSALifetime], nested scopes included, leaves
    every such block as it was.  Without leaks every block of the
    availability boundary has its terminator visited, whatever the
    terminator is, and a call along [Availability] on a value with a local
    lifetime that is new to [completedValues] inserts an ending for it in
    every block of its availability boundary. *)
Theorem availabilityWithLeaks_spares_leaky_blocks :
  (∀ value liveness F pos,
      pos ∈ visitAvailabilityBoundary value AllowLeaks liveness F →
      ∃ block, F !! posBlock pos = Some block
               ∧ isDeadEnd (terminator block) = true)
  ∧ (∀ fuel value self r self' b block,
       completeOSSALifetime fuel value AvailabilityWithLeaks self
       = Some (r, self') →
       function self !! b = Some block →
       isDeadEnd (terminator block) = false →
       function self' !! b = Some block)
  ∧ (∀ value liveness F b block,
       b ∈ availabilityBoundaryBlocks F value liveness →
       F !! b = Some block →
       terminatorPosition b block
       ∈ visitAvailabilityBoundary value DoNotAllowLeaks liveness F)
  ∧ (∀ fuel value self r self',
       completeOSSALifetime (S fuel) value Availability self = Some (r, self') →
       hasLocalLifetime value →
       value ∉ completedValues self →
       ∃ self1,
         completeInnerScopes (completeOSSALifetime fuel) Availability
           (innerBorrowScopes value)
           (mk (domInfo self) ({[value]} ∪ completedValues self) (function self))
         = Some self1
         ∧ ∀ b block,
             b ∈ availabilityBoundaryBlocks (function self1) value
                   (computeLiveness (domInfo self1) (function self1) value) →
             function self1 !! b = Some block →
             ∃ block',
               function self' !! b = Some block'
               ∧ endingsInBlock value block < endingsInBlock value block').
Proof.
  split; [|split; [|split]].
  - intros value liveness F pos Hpos.
    apply visitAvailabilityBoundary_elem in Hpos
      as (b & block & _ & Hblock & Hdead & ->).
    exists block. split; [done|]. by apply Hdead.
  - intros fuel value self r self' b block Hcall Hblock Hleaky.
    apply completeOSSALifetime_steps, steps_leakyBlocksKept in Hcall.
    destruct (proj2 Hcall b block Hblock) as (block' & Hblock' & _ & Hkept).
    by rewrite Hblock', Hkept.
  - intros value liveness F b block Hb Hblock.
    apply visitAvailabilityBoundary_elem. by exists b, block.
  - intros fuel value self r self' Hcall Hlocal Hfresh.
    destruct (completeOSSALifetime_cases fuel value Availability self)
      as [[Hkind _]|[(Hkind & Hnone & _)|[(_ & Hscope & _)|[(_ & Hin & _)
          |(_ & _ & Heq)]]]].
    + destruct (hasLocalLifetime_not_early _ Hlocal). by left.
    + destruct (hasLocalLifetime_not_early _ Hlocal). right. left.
      split; [by rewrite Hkind|done].
    + destruct (hasLocalLifetime_not_early _ Hlocal). by do 2 right.
    + done.
    + rewrite Heq in Hcall. unfold analyzeAndUpdateLifetime in Hcall.
      destruct (completeInnerScopes _ _ _ _) as [self1|]; [|done].
      exists self1. split; [done|]. injection Hcall as _ <-. simpl.
      intros b block Hb Hblock.
      apply (foldl_insertLifetimeEnd_gains value _ _ (terminatorPosition b block));
        [|done].
      apply visitAvailabilityBoundary_elem. by exists b, block.
Qed.

End Completeness.

(** ** The fixup object *)

Section SingleUse.
Context `{Collaborators}.

(** C8, as amended.  [visitUnreachableBlock] never reads
    [updatingLifetimes]: on every object, also one on which
    [completeLifetimes] has run, it records the block, leaves [function],
    [domInfo], [unreachableInsts], [incompleteValues] and
    [updatingLifetimes] as they were and returns normally; it agrees with
    the checked version exactly while the flag is clear. *)
Theorem visitUnreachableBlock_unchecked
    (self : UnreachableLifetimeCompletion.t) (block : nat) :
  let self' := UnreachableLifetimeCompletion.visitUnreachableBlock self block in
  UnreachableLifetimeCompletion.unreachableBlocks self'
  = SetVector_insert block (UnreachableLifetimeCompletion.unreachableBlocks self)
  ∧ block ∈ UnreachableLifetimeCompletion.unreachableBlocks self'
  ∧ UnreachableLifetimeCompletion.updatingLifetimes self'
    = UnreachableLifetimeCompletion.updatingLifetimes self
  ∧ UnreachableLifetimeCompletion.function self'
    = UnreachableLifetimeCompletion.function self
  ∧ UnreachableLifetimeCompletion.domInfo self'
    = UnreachableLifetimeCompletion.domInfo self
  ∧ UnreachableLifetimeCompletion.unreachableInsts self'
    = UnreachableLifetimeCompletion.unreachableInsts self
  ∧ UnreachableLifetimeCompletion.incompleteValues self'
    = UnreachableLifetimeCompletion.incompleteValues self
  ∧ (UnreachableLifetimeCompletion.visitUnreachableBlock_checked self block
     = Some self'
     ↔ UnreachableLifetimeCompletion.updatingLifetimes self = false).
Proof.
  simpl. repeat split; try done.
  - unfold SetVector_insert. case_decide; [done|].
    apply elem_of_app. right. by apply list_elem_of_singleton.
  - unfold UnreachableLifetimeCompletion.visitUnreachableBlock_checked.
    by destruct (UnreachableLifetimeCompletion.updatingLifetimes self).
  - unfold UnreachableLifetimeCompletion.visitUnreachableBlock_checked.
    by intros ->.
Qed.

End SingleUse.

(** ** The scenario *)

Section Examples.
Import Scenario.

Lemma scenario_innerBorrowScopes :
  ∀ v w, w ∈ innerBorrowScopes v → w ∈ values.
Proof.
  intros v w. simpl. case_decide.
  - intros ->%list_elem_of_singleton. unfold values. set_solver.
  - by intros ?%not_elem_of_nil.
Defined.

Example run_liveness :
  (λ rs, (rs.1, function rs.2 !! A, function rs.2 !! Exit, function rs.2 !! B))
    <$> completeOSSALifetime 6 x Liveness engine
  = Some (WasCompleted,
          Some (mkBlock [Use borrow; EndLifetime borrow; Use x; EndLifetime x]
                        (BranchInst [Exit])),
          Some (mkBlock [] ReturnInst),
          Some (mkBlock [OtherInst] UnreachableInst)).
Proof. vm_compute. reflexivity. Qed.

Example run_availability :
  (λ rs, (rs.1, function rs.2 !! A, function rs.2 !! Exit, function rs.2 !! B))
    <$> completeOSSALifetime 6 x Availability engine
  = Some (WasCompleted,
          Some (mkBlock [Use borrow; Use x] (BranchInst [Exit])),
          Some (mkBlock [EndLifetime borrow; EndLifetime x] ReturnInst),
          Some (mkBlock [OtherInst; EndLifetime borrow; EndLifetime x]
                        UnreachableInst)).
Proof. vm_compute. reflexivity. Qed.

Example run_availability_with_leaks :
  (λ rs, (rs.1, function rs.2 !! A, function rs.2 !! Exit, function rs.2 !! B))
    <$> completeOSSALifetime 6 x AvailabilityWithLeaks engine
  = Some (WasCompleted,
          Some (mkBlock [Use borrow; Use x] (BranchInst [Exit])),
          Some (mkBlock [] ReturnInst),
          Some (mkBlock [OtherInst; EndLifetime borrow; EndLifetime x]
                        UnreachableInst)).
Proof. vm_compute. reflexivity. Qed.

(** With leaks allowed [Exit] is skipped: the call returns [WasCompleted]
    and the path [Entry; A; Exit] still carries no ending for [x]. *)
Example run_availability_with_leaks_path :
  (λ rs, (rs.1, isPathFromDefinition (function rs.2) x [Entry; A; Exit],
          endingsOnPath (function rs.2) x [Entry; A; Exit]))
    <$> completeOSSALifetime 6 x AvailabilityWithLeaks engine
  = Some (WasCompleted, true, 0).
Proof. vm_compute. reflexivity. Qed.

(** Along [Liveness] and along [Availability] the same path carries one
    ending for [x] and one for [borrow]. *)
Example run_liveness_path :
  (λ rs, (endingsOnPath (function rs.2) x [Entry; A; Exit],
          endingsOnPath (function rs.2) borrow [Entry; A; Exit]))
    <$> completeOSSALifetime 6 x Liveness engine
  = Some (1, 1).
Proof. vm_compute. reflexivity. Qed.

Example run_availability_path :
  (λ rs, (endingsOnPath (function rs.2) x [Entry; A; Exit],
          endingsOnPath (function rs.2) borrow [Entry; A; Exit]))
    <$> completeOSSALifetime 6 x Availability engine
  = Some (1, 1).
Proof. vm_compute. reflexivity. Qed.

(** The fixup of the region [B]: [borrow] is ended behind its last use in
    [A], [x] in [Exit], and the result tells that endings were inserted. *)
Example run_completeLifetimes :
  (λ rs, (rs.1,
          UnreachableLifetimeCompletion.function rs.2 !! A,
          UnreachableLifetimeCompletion.function rs.2 !! Exit))
    <$> UnreachableLifetimeCompletion.completeLifetimes 6 collecting
  = Some (true,
          Some (mkBlock [Use borrow; EndLifetime borrow; Use x]
                        (BranchInst [Exit])),
          Some (mkBlock [EndLifetime x] ReturnInst)).
Proof. vm_compute. reflexivity. Qed.

Example run_calls :
  map fst <$> completeAll 6 calls engine
  = Some [WasCompleted; AlreadyComplete; AlreadyComplete; NoLifetime;
          AlreadyComplete].
Proof. vm_compute. reflexivity. Qed.

Lemma completeOSSALifetime_dispatch_witness :
  completeOSSALifetime 1 trivial Liveness engine = Some (NoLifetime, engine)
  ∧ completeOSSALifetime 1 projection Availability engine
    = Some (NoLifetime, engine)
  ∧ completeOSSALifetime 1 argument AvailabilityWithLeaks engine
    = Some (AlreadyComplete, engine).
Proof.
  split; [|split].
  - apply (proj1 (completeOSSALifetime_dispatch 0 trivial Liveness engine)).
    reflexivity.
  - apply (proj1 (proj2
      (completeOSSALifetime_dispatch 0 projection Availability engine)));
      [discriminate|reflexivity].
  - apply (proj2 (proj2
      (completeOSSALifetime_dispatch 0 argument AvailabilityWithLeaks engine))
      (mkBorrowedValue false)); reflexivity.
Defined.

Lemma completeOSSALifetime_owned_witness :
  getOwnershipKind x = OwnershipKind.Owned
  ∧ ∃ r self',
      completeOSSALifetime 6 x Liveness engine = Some (r, self')
      ∧ (r = AlreadyComplete ∨ r = WasCompleted).
Proof.
  split; [reflexivity|].
  apply (completeOSSALifetime_owned values x Liveness engine).
  - reflexivity.
  - exact scenario_innerBorrowScopes.
  - unfold values. set_solver.
  - vm_compute. lia.
Defined.

Lemma completedValues_invariant_witness :
  let results := default [] (completeAll 6 calls engine) in
  completeAll 6 calls (new body None) = Some results
  ∧ ∀ r self', (r, self') ∈ results → completedValues_ok self'.
Proof.
  assert (completeAll 6 calls (new body None)
          = Some (default [] (completeAll 6 calls engine))) as Hall.
  { vm_compute. reflexivity. }
  split; [exact Hall|].
  intros r self'.
  exact (proj2 (proj2 completedValues_invariant) 6 calls body None _ r self' Hall).
Defined.

Lemma completeOSSALifetime_idempotent_witness :
  let results := default [] (completeAll 6 calls engine) in
  completeAll 6 calls engine = Some results
  ∧ wasCompletedCalls x calls results ≤ 1.
Proof.
  assert (completeAll 6 calls engine
          = Some (default [] (completeAll 6 calls engine))) as Hall.
  { vm_compute. reflexivity. }
  split; [exact Hall|].
  exact (proj1 (completeOSSALifetime_idempotent 6 calls engine _ x Hall)).
Defined.



Lemma availabilityWithLeaks_spares_leaky_blocks_witness :
  let result := default (NoLifetime, engine)
                  (completeOSSALifetime 6 x AvailabilityWithLeaks engine) in
  completeOSSALifetime 6 x AvailabilityWithLeaks engine = Some result
  ∧ function result.2 !! Exit = Some (mkBlock [] ReturnInst).
Proof.
  assert (completeOSSALifetime 6 x AvailabilityWithLeaks engine
          = Some (default (NoLifetime, engine)
                    (completeOSSALifetime 6 x AvailabilityWithLeaks engine)))
    as Hcall.
  { vm_compute. reflexivity. }
  split; [exact Hcall|].
  set (result := default _ _) in *. destruct result as [r self'].
  apply (proj1 (proj2 availabilityWithLeaks_spares_leaky_blocks)
           6 x engine r self' Exit (mkBlock [] ReturnInst) Hcall);
    reflexivity.
Defined.



(** C8, counterexample.  After [completeLifetimes] has run on the object
    that collected the region [B], the flag is set and a checked
    [visitUnreachableBlock] would fault; the one of the header records
    [Exit] all the same. *)
Lemma single_use_counterexample :
  ∃ changed used,
    UnreachableLifetimeCompletion.completeLifetimes 6 collecting
    = Some (changed, used)
    ∧ UnreachableLifetimeCompletion.updatingLifetimes used = true
    ∧ UnreachableLifetimeCompletion.visitUnreachableBlock_checked used Exit
      = None
    ∧ UnreachableLifetimeCompletion.unreachableBlocks
        (UnreachableLifetimeCompletion.visitUnreachableBlock used Exit)
      = [B; Exit].
Proof.
  eexists _, _. split; [vm_compute; reflexivity|].
  split; [reflexivity|]. split; [reflexivity|]. reflexivity.
Qed.

End Examples.

(** * Further properties of the header *)

(** ** What the result of [completeOSSALifetime] tells *)

Section Results.
Context `{Collaborators}.

(** X1.  [NoLifetime] is returned exactly for values of kind None and for
    values that are not owned and are not borrow introducers, and then the
    engine is unchanged; [WasCompleted] is returned only for a value with a
    local lifetime that was not yet in [completedValues]. *)
Theorem completeOSSALifetime_result_meaning fuel value boundary self r self' :
  completeOSSALifetime fuel value boundary self = Some (r, self') →
  (r = NoLifetime ↔
     getOwnershipKind value = OwnershipKind.None
     ∨ (getOwnershipKind value ≠ OwnershipKind.Owned
        ∧ BorrowedValue value = None))
  ∧ (r = NoLifetime → self' = self)
  ∧ (r = WasCompleted →
       hasLocalLifetime value ∧ value ∉ completedValues self).
Proof.
  destruct fuel as [|fuel]; [done|].
  destruct (completeOSSALifetime_cases fuel value boundary self)
    as [[Hkind ->]|[(Hkind & Hnone & ->)|[(Hkind & (bv & Hbv & Hscope) & ->)
        |[(Hlocal & Hin & ->)|(Hlocal & Hfresh & ->)]]]].
  - intros [= <- <-]. split; [|done]. split; [by left|done].
  - intros [= <- <-]. split; [|done]. split; [|done].
    right. split; [by rewrite Hkind|done].
  - intros [= <- <-]. split; [|done]. split; [done|].
    intros [Hk|[_ Hno]]; congruence.
  - intros [= <- <-]. split; [|done]. split; [done|].
    intros Hearly. destruct (hasLocalLifetime_not_early _ Hlocal).
    destruct Hearly as [|[]]; [by left|by right; left].
  - destruct (analyzeAndUpdateLifetime _ _ _ _) as [[changed self1]|]; [|done].
    intros [= <- <-]. split; [|split].
    + split; [by destruct changed|].
      intros Hearly. destruct (hasLocalLifetime_not_early _ Hlocal).
      destruct Hearly as [|[]]; [by left|by right; left].
    + by destruct changed.
    + done.
Qed.

(** X2.  A call only adds to the cache and keeps the dominance
    information: [completedValues] grows, [domInfo] is the same, and the
    value of the call is in [completedValues] afterwards exactly when it
    has a local lifetime or was there before. *)
Theorem completeOSSALifetime_memoises fuel value boundary self r self' :
  completeOSSALifetime fuel value boundary self = Some (r, self') →
  completedValues self ⊆ completedValues self'
  ∧ domInfo self' = domInfo self
  ∧ (value ∈ completedValues self' ↔
       hasLocalLifetime value ∨ value ∈ completedValues self).
Proof.
  intros Hcall.
  pose proof (completeOSSALifetime_steps _ _ _ _ _ _ Hcall) as Hsteps.
  pose proof (steps_completedValues _ _ _ Hsteps) as Hmono.
  split; [done|]. split; [by eapply steps_domInfo|]. split.
  - intros Hin. destruct (steps_entered _ _ _ _ Hsteps Hin); auto.
  - intros [Hlocal|Hin]; [|by apply Hmono].
    destruct fuel as [|fuel]; [done|].
    destruct (completeOSSALifetime_cases fuel value boundary self)
      as [[Hkind _]|[(Hkind & Hnone & _)|[(_ & Hscope & _)|[(_ & Hin & _)
          |(_ & Hfresh & Heq)]]]].
    + destruct (hasLocalLifetime_not_early _ Hlocal). by left.
    + destruct (hasLocalLifetime_not_early _ Hlocal). right. left.
      split; [by rewrite Hkind|done].
    + destruct (hasLocalLifetime_not_early _ Hlocal). by do 2 right.
    + by apply Hmono.
    + assert (r ≠ NoLifetime) as Hr.
      { rewrite Heq in Hcall.
        destruct (analyzeAndUpdateLifetime _ _ _ _) as [[[|] self1]|];
          [| |done]; by injection Hcall as <- _. }
      destruct (settled_after _ _ _ _ _ _ Hcall Hr) as [Hscope|[_ Hin]]; [|done].
      destruct (hasLocalLifetime_not_early _ Hlocal). by do 2 right.
Qed.

Lemma quiet_call fuel value boundary self :
  quiet value self →
  ∃ r, completeOSSALifetime (S fuel) value boundary self = Some (r, self)
       ∧ r ≠ WasCompleted.
Proof.
  intros [Hearly|Hsettled].
  - destruct (completeOSSALifetime_cases fuel value boundary self)
      as [[_ ->]|[(_ & _ & ->)|[(_ & _ & ->)|[(Hlocal & _)|(Hlocal & _)]]]];
      try (by eexists);
      by destruct (hasLocalLifetime_not_early _ Hlocal).
  - exists AlreadyComplete. split; [by apply settled_call|done].
Qed.

Lemma quiet_kept fuel value w boundary self r self' :
  quiet value self →
  completeOSSALifetime fuel w boundary self = Some (r, self') →
  quiet value self'.
Proof.
  intros [Hearly|Hsettled] Hcall; [by left|]. right. by eapply settled_kept.
Qed.

Lemma quiet_after fuel value boundary self r self' :
  completeOSSALifetime fuel value boundary self = Some (r, self') →
  quiet value self'.
Proof.
  intros Hcall. destruct (decide (r = NoLifetime)) as [->|Hr];
    [|right; by eapply settled_after].
  left. destruct fuel as [|fuel]; [done|].
  destruct (completeOSSALifetime_cases fuel value boundary self)
    as [[Hkind _]|[(Hkind & Hnone & _)|[(_ & _ & Heq)|[(_ & _ & Heq)
        |(_ & _ & Heq)]]]].
  - by left.
  - right. left. split; [by rewrite Hkind|done].
  - by rewrite Heq in Hcall.
  - by rewrite Heq in Hcall.
  - rewrite Heq in Hcall.
    by destruct (analyzeAndUpdateLifetime _ _ _ _) as [[[|] self1]|].
Qed.

Lemma quiet_lastEngine fuel value calls :
  ∀ self results,
    quiet value self →
    completeAll fuel calls self = Some results →
    quiet value (lastEngine self results).
Proof.
  induction calls as [|[w b] rest IH]; intros self results Hquiet Hall.
  - by injection Hall as <-.
  - apply completeAll_cons in Hall as (r1 & self1 & results' & Hfirst & Hrest & ->).
    simpl. apply (IH self1 results'); [|done]. by eapply quiet_kept.
Qed.

Lemma completeAll_quiet fuel calls :
  ∀ self results value boundary,
    completeAll fuel calls self = Some results →
    (value, boundary) ∈ calls →
    quiet value (lastEngine self results).
Proof.
  induction calls as [|[w b] rest IH]; intros self results value boundary Hall Hin.
  - by apply not_elem_of_nil in Hin.
  - apply completeAll_cons in Hall as (r1 & self1 & results' & Hfirst & Hrest & ->).
    simpl. apply elem_of_cons in Hin as [[= -> ->]|Hin].
    + eapply quiet_lastEngine; [|done]. by eapply quiet_after.
    + by eapply IH.
Qed.

Lemma completeAll_on_quiet fuel calls self :
  (∀ value boundary, (value, boundary) ∈ calls → quiet value self) →
  ∃ results,
    completeAll (S fuel) calls self = Some results
    ∧ length results = length calls
    ∧ ∀ r self', (r, self') ∈ results → r ≠ WasCompleted ∧ self' = self.
Proof.
  induction calls as [|[w b] rest IH]; intros Hquiet.
  - exists []. split; [done|]. split; [done|].
    intros r self' Hin. by apply not_elem_of_nil in Hin.
  - destruct (quiet_call fuel w b self) as (r & Hcall & Hr).
    { eapply Hquiet. left. }
    destruct IH as (results & Hall & Hlen & Hresults).
    { intros v b' Hin. eapply Hquiet. by right. }
    exists ((r, self) :: results). cbn [completeAll]. rewrite Hcall, Hall.
    split; [done|]. split; [simpl; by rewrite Hlen|].
    intros r' self' [[= -> ->]|Hin]%elem_of_cons; [done|]. by apply Hresults.
Qed.

(** X4.  A second pass is free: once a sequence of calls has returned,
    running the same calls again on the engine it ended with (each value
    with any boundary) returns for every call, never with [WasCompleted],
    and leaves the engine, its function included, as it was. *)
Theorem completeAll_second_pass fuel fuel' calls again self results :
  completeAll fuel calls self = Some results →
  (∀ value boundary, (value, boundary) ∈ again →
     ∃ boundary', (value, boundary') ∈ calls) →
  ∃ results',
    completeAll (S fuel') again (lastEngine self results) = Some results'
    ∧ length results' = length again
    ∧ ∀ r self', (r, self') ∈ results' →
        r ≠ WasCompleted ∧ self' = lastEngine self results.
Proof.
  intros Hall Hagain. apply completeAll_on_quiet.
  intros value boundary Hin. destruct (Hagain _ _ Hin) as [boundary' Hin'].
  by eapply completeAll_quiet.
Qed.

End Results.

(** ** The blocks [visitUnreachableBlock] records *)

Lemma SetVector_insert_elem (x b : nat) l :
  x ∈ SetVector_insert b l ↔ x ∈ l ∨ x = b.
Proof.
  unfold SetVector_insert. case_decide.
  - split; [by left|]. by intros [ | ->].
  - rewrite elem_of_app, list_elem_of_singleton. done.
Qed.

Lemma SetVector_insert_NoDup (b : nat) l :
  NoDup l → NoDup (SetVector_insert b l).
Proof.
  intros Hl. unfold SetVector_insert. case_decide; [done|].
  apply NoDup_app. split; [done|]. split; [|apply NoDup_singleton].
  intros x Hx ->%list_elem_of_singleton. done.
Qed.

Lemma SetVector_insert_prefix (b : nat) l : l `prefix_of` SetVector_insert b l.
Proof.
  unfold SetVector_insert. case_decide; [done|]. by exists [b].
Qed.

Lemma SetVector_insert_twice (a : nat) l :
  SetVector_insert a (SetVector_insert a l) = SetVector_insert a l.
Proof.
  unfold SetVector_insert at 1. rewrite decide_True; [done|].
  apply SetVector_insert_elem. by right.
Qed.

Lemma SetVector_insert_old (a : nat) l : a ∈ l → SetVector_insert a l = l.
Proof. intros Ha. unfold SetVector_insert. by rewrite decide_True. Qed.

Lemma SetVector_insert_fresh (a : nat) l :
  a ∉ l → SetVector_insert a l = l ++ [a].
Proof. intros Ha. unfold SetVector_insert. by rewrite decide_False. Qed.

Lemma SetVector_insert_swap_eq (a b : nat) l :
  a ∈ l ∨ b ∈ l ∨ a = b →
  SetVector_insert b (SetVector_insert a l)
  = SetVector_insert a (SetVector_insert b l).
Proof.
  intros [Ha|[Hb| ->]]; [| |done].
  - rewrite (SetVector_insert_old a l Ha).
    rewrite (SetVector_insert_old a (SetVector_insert b l)); [done|].
    apply SetVector_insert_elem. by left.
  - rewrite (SetVector_insert_old b l Hb).
    rewrite (SetVector_insert_old b (SetVector_insert a l)); [done|].
    apply SetVector_insert_elem. by left.
Qed.

Lemma SetVector_insert_swap (a b : nat) l :
  SetVector_insert b (SetVector_insert a l)
  ≡ₚ SetVector_insert a (SetVector_insert b l).
Proof.
  destruct (decide (a ∈ l ∨ b ∈ l ∨ a = b)) as [Hcase|Hcase].
  - by rewrite SetVector_insert_swap_eq.
  - assert ((a ∉ l) ∧ (b ∉ l) ∧ a ≠ b) as (Ha & Hb & Hab) by tauto.
    rewrite (SetVector_insert_fresh a l Ha), (SetVector_insert_fresh b l Hb).
    rewrite (SetVector_insert_fresh b (l ++ [a])),
            (SetVector_insert_fresh a (l ++ [b])).
    + rewrite <- !(assoc_L (++)). apply Permutation_app_head. apply perm_swap.
    + rewrite elem_of_app, list_elem_of_singleton. tauto.
    + rewrite elem_of_app, list_elem_of_singleton. intros [|]; [done|congruence].
Qed.

Lemma SetVector_inserts_first_visits (blocks : list nat) :
  foldl (λ l b, SetVector_insert b l) [] blocks
  = reverse (remove_dups (reverse blocks)).
Proof.
  induction blocks as [|b blocks IH] using rev_ind; [done|].
  rewrite foldl_snoc, reverse_snoc, IH. simpl.
  unfold SetVector_insert.
  destruct (decide_rel elem_of b (reverse blocks)) as [Hin|Hout].
  - rewrite decide_True; [done|].
    by rewrite elem_of_reverse, elem_of_remove_dups.
  - rewrite decide_False, reverse_cons; [done|].
    by rewrite elem_of_reverse, elem_of_remove_dups.
Qed.

Section Blocks.
Context `{Collaborators}.

Lemma visitUnreachableBlocks_blocks self blocks :
  UnreachableLifetimeCompletion.unreachableBlocks
    (visitUnreachableBlocks self blocks)
  = foldl (λ l b, SetVector_insert b l)
      (UnreachableLifetimeCompletion.unreachableBlocks self) blocks.
Proof.
  unfold visitUnreachableBlocks. revert self.
  induction blocks as [|b blocks IH]; intros self; [done|]. simpl.
  by rewrite IH.
Qed.

(** X5.  On a new object, a run of [visitUnreachableBlock] records exactly
    the blocks visited, each once, in the order of their first visits. *)
Theorem visitUnreachableBlock_first_visits F dom blocks :
  let self :=
    visitUnreachableBlocks (UnreachableLifetimeCompletion.new F dom) blocks in
  UnreachableLifetimeCompletion.unreachableBlocks self
  = reverse (remove_dups (reverse blocks))
  ∧ NoDup (UnreachableLifetimeCompletion.unreachableBlocks self)
  ∧ (∀ b, b ∈ UnreachableLifetimeCompletion.unreachableBlocks self ↔ b ∈ blocks)
  ∧ length (UnreachableLifetimeCompletion.unreachableBlocks self)
    ≤ length blocks.
Proof.
  simpl. rewrite visitUnreachableBlocks_blocks. simpl.
  rewrite SetVector_inserts_first_visits.
  assert (NoDup (reverse (remove_dups (reverse blocks)))) as Hnodup.
  { rewrite reverse_Permutation. apply NoDup_remove_dups. }
  assert (∀ b, b ∈ reverse (remove_dups (reverse blocks)) ↔ b ∈ blocks) as Hin.
  { intros b. by rewrite elem_of_reverse, elem_of_remove_dups, elem_of_reverse. }
  split; [done|]. split; [done|]. split; [done|].
  apply submseteq_length, NoDup_submseteq; [done|]. intros b. apply Hin.
Qed.

Lemma visitUnreachableBlocks_other_fields self blocks :
  let self' := visitUnreachableBlocks self blocks in
  UnreachableLifetimeCompletion.function self'
  = UnreachableLifetimeCompletion.function self
  ∧ UnreachableLifetimeCompletion.domInfo self'
    = UnreachableLifetimeCompletion.domInfo self
  ∧ UnreachableLifetimeCompletion.unreachableInsts self'
    = UnreachableLifetimeCompletion.unreachableInsts self
  ∧ UnreachableLifetimeCompletion.incompleteValues self'
    = UnreachableLifetimeCompletion.incompleteValues self
  ∧ UnreachableLifetimeCompletion.updatingLifetimes self'
    = UnreachableLifetimeCompletion.updatingLifetimes self.
Proof.
  simpl. unfold visitUnreachableBlocks. revert self.
  induction blocks as [|b blocks IH]; intros self; simpl; [done|].
  apply (IH (UnreachableLifetimeCompletion.visitUnreachableBlock self b)).
Qed.

(** X6.  On any object, a run of [visitUnreachableBlock] only appends:
    the blocks already recorded keep their places, the recorded blocks
    afterwards are those recorded before and those visited, no block is
    recorded twice if none was, and no other field changes. *)
Theorem visitUnreachableBlock_appends self blocks :
  let self' := visitUnreachableBlocks self blocks in
  UnreachableLifetimeCompletion.unreachableBlocks self
    `prefix_of` UnreachableLifetimeCompletion.unreachableBlocks self'
  ∧ (∀ b, b ∈ UnreachableLifetimeCompletion.unreachableBlocks self' ↔
          b ∈ UnreachableLifetimeCompletion.unreachableBlocks self ∨ b ∈ blocks)
  ∧ (NoDup (UnreachableLifetimeCompletion.unreachableBlocks self) →
     NoDup (UnreachableLifetimeCompletion.unreachableBlocks self'))
  ∧ UnreachableLifetimeCompletion.function self'
    = UnreachableLifetimeCompletion.function self
  ∧ UnreachableLifetimeCompletion.domInfo self'
    = UnreachableLifetimeCompletion.domInfo self
  ∧ UnreachableLifetimeCompletion.unreachableInsts self'
    = UnreachableLifetimeCompletion.unreachableInsts self
  ∧ UnreachableLifetimeCompletion.incompleteValues self'
    = UnreachableLifetimeCompletion.incompleteValues self
  ∧ UnreachableLifetimeCompletion.updatingLifetimes self'
    = UnreachableLifetimeCompletion.updatingLifetimes self.
Proof.
  simpl. unfold visitUnreachableBlocks. revert self.
  induction blocks as [|b blocks IH]; intros self; simpl.
  - repeat split; try done; [by left|by intros [|?%not_elem_of_nil]].
  - destruct (IH (UnreachableLifetimeCompletion.visitUnreachableBlock self b))
      as (Hprefix & Hin & Hnodup & Hf & Hd & Hi & Hv & Hu).
    simpl in *. split; [|split; [|split]]; [| | |done].
    + etrans; [apply (SetVector_insert_prefix b)|exact Hprefix].
    + intros x. rewrite Hin, SetVector_insert_elem, elem_of_cons. tauto.
    + intros Hself. by apply Hnodup, SetVector_insert_NoDup.
Qed.

(** X7.  The constructor of [UnreachableLifetimeCompletion] does not keep
    the dominance information it is given: whatever is passed, the object
    has none, and after any run of [visitUnreachableBlock] it still has
    none, is still collecting, has recorded no instruction and no value,
    and holds the function it was built for. *)
Theorem UnreachableLifetimeCompletion_new_collecting F dom dom' blocks :
  let self :=
    visitUnreachableBlocks (UnreachableLifetimeCompletion.new F dom) blocks in
  self = visitUnreachableBlocks (UnreachableLifetimeCompletion.new F dom') blocks
  ∧ UnreachableLifetimeCompletion.domInfo self = None
  ∧ UnreachableLifetimeCompletion.updatingLifetimes self = false
  ∧ UnreachableLifetimeCompletion.unreachableInsts self = ∅
  ∧ UnreachableLifetimeCompletion.incompleteValues self = []
  ∧ UnreachableLifetimeCompletion.function self = F.
Proof.
  simpl.
  destruct (visitUnreachableBlocks_other_fields
              (UnreachableLifetimeCompletion.new F dom) blocks)
    as (Hf & Hd & Hi & Hv & Hu).
  simpl in *. by rewrite Hf, Hd, Hi, Hv, Hu.
Qed.

(** X8.  Visiting a block twice is visiting it once, and two visits in
    either order record the same blocks, up to their order, and agree on
    every other field: [function], [domInfo], [unreachableInsts],
    [incompleteValues] and [updatingLifetimes].  The two orders give the
    very same object when one of the blocks was already recorded or the
    blocks are equal. *)
Theorem visitUnreachableBlock_idempotent_commutes self a b :
  let ab :=
    UnreachableLifetimeCompletion.visitUnreachableBlock
      (UnreachableLifetimeCompletion.visitUnreachableBlock self a) b in
  let ba :=
    UnreachableLifetimeCompletion.visitUnreachableBlock
      (UnreachableLifetimeCompletion.visitUnreachableBlock self b) a in
  UnreachableLifetimeCompletion.visitUnreachableBlock
    (UnreachableLifetimeCompletion.visitUnreachableBlock self a) a
  = UnreachableLifetimeCompletion.visitUnreachableBlock self a
  ∧ UnreachableLifetimeCompletion.unreachableBlocks ab
    ≡ₚ UnreachableLifetimeCompletion.unreachableBlocks ba
  ∧ UnreachableLifetimeCompletion.function ab
    = UnreachableLifetimeCompletion.function ba
  ∧ UnreachableLifetimeCompletion.domInfo ab
    = UnreachableLifetimeCompletion.domInfo ba
  ∧ UnreachableLifetimeCompletion.unreachableInsts ab
    = UnreachableLifetimeCompletion.unreachableInsts ba
  ∧ UnreachableLifetimeCompletion.incompleteValues ab
    = UnreachableLifetimeCompletion.incompleteValues ba
  ∧ UnreachableLifetimeCompletion.updatingLifetimes ab
    = UnreachableLifetimeCompletion.updatingLifetimes ba
  ∧ (a ∈ UnreachableLifetimeCompletion.unreachableBlocks self
     ∨ b ∈ UnreachableLifetimeCompletion.unreachableBlocks self ∨ a = b →
     ab = ba).
Proof.
  destruct self as [F dom blocks insts values flag].
  unfold UnreachableLifetimeCompletion.visitUnreachableBlock; simpl.
  split; [by rewrite SetVector_insert_twice|].
  split; [apply SetVector_insert_swap|].
  do 5 (split; [done|]).
  intros Hcase. by rewrite SetVector_insert_swap_eq.
Qed.

End Blocks.

(** ** What [operator<<] writes *)

Lemma append_cancel (OS a b : string) : OS +:+ a = OS +:+ b → a = b.
Proof.
  induction OS as [|c OS IH]; simpl; [done|]. intros [= Heq]. by apply IH.
Qed.

Lemma append_prefix (OS a b : string) : (OS +:+ a) +:+ b = OS +:+ (a +:+ b).
Proof.
  induction OS as [|c OS IH]; [done|].
  change (String c ((OS +:+ a) +:+ b) = String c (OS +:+ (a +:+ b))).
  by rewrite IH.
Qed.

Lemma append_empty (OS : string) : OS +:+ "" = OS.
Proof.
  induction OS as [|c OS IH]; [done|].
  change (String c (OS +:+ "") = String c OS). by rewrite IH.
Qed.

Lemma append_nothing (OS a : string) : OS +:+ a = OS → a = ""%string.
Proof.
  intros Heq. apply (append_cancel OS). by rewrite append_empty.
Qed.

(** X9.  [operator<<] appends the name of the enumerator to what the stream
    holds, and writes nothing when the byte is no enumerator.  So on one
    stream two bytes give the same text exactly when they are equal or
    neither is an enumerator: the three boundaries are told apart, the
    bytes 3 to 255 are not.  The text of [Availability] is a prefix of the
    text of [AvailabilityWithLeaks]. *)
Theorem Boundary_print_injective OS :
  (∀ boundary,
      ∃ name, name ≠ ""%string
              ∧ Boundary_print OS (Boundary_Value boundary) = OS +:+ name)
  ∧ (∀ value, (value < 0 ∨ 2 < value)%Z → Boundary_print OS value = OS)
  ∧ (∀ value value',
       Boundary_print OS value = Boundary_print OS value' ↔
       value = value'
       ∨ ((value < 0 ∨ 2 < value) ∧ (value' < 0 ∨ 2 < value'))%Z)
  ∧ (∀ boundary boundary',
       Boundary_print OS (Boundary_Value boundary)
       = Boundary_print OS (Boundary_Value boundary') →
       boundary = boundary')
  ∧ Boundary_print OS (Boundary_Value AvailabilityWithLeaks)
    = Boundary_print OS (Boundary_Value Availability) +:+ "_with_leaks".
Proof.
  assert (∀ value, (value < 0 ∨ 2 < value)%Z → Boundary_print OS value = OS)
    as Hother.
  { intros value Hvalue. unfold Boundary_print.
    repeat (rewrite decide_False; [|lia]). done. }
  assert (∀ value value',
    Boundary_print OS value = Boundary_print OS value' ↔
    value = value'
    ∨ ((value < 0 ∨ 2 < value) ∧ (value' < 0 ∨ 2 < value'))%Z) as Hsame.
  { intros value value'. split.
    - unfold Boundary_print. intros Heq.
      repeat case_decide; subst;
        try (by left); try (right; lia);
        try (by apply append_cancel in Heq);
        try (by apply append_nothing in Heq);
        try (symmetry in Heq; by apply append_nothing in Heq).
    - intros [->|[Hvalue Hvalue']]; [done|].
      by rewrite (Hother value), (Hother value'). }
  split; [|split; [done|split; [done|split]]].
  - intros boundary. destruct boundary;
      [exists "liveness"%string|exists "availability"%string
      |exists "availability_with_leaks"%string]; by split.
  - intros boundary boundary' Heq. apply Hsame in Heq as [Heq|[Hout _]].
    + by destruct boundary, boundary'.
    + destruct boundary; simpl in Hout; lia.
  - unfold Boundary_print, Boundary_Value. simpl. by rewrite append_prefix.
Qed.

(** ** The scenario, continued *)

Section MoreExamples.
Import Scenario.

Lemma completeOSSALifetime_result_meaning_witness :
  let result := default (NoLifetime, engine)
                  (completeOSSALifetime 6 x Liveness engine) in
  completeOSSALifetime 6 x Liveness engine = Some result
  ∧ (result.1 = WasCompleted →
       hasLocalLifetime x ∧ x ∉ completedValues engine).
Proof.
  assert (completeOSSALifetime 6 x Liveness engine
          = Some (default (NoLifetime, engine)
                    (completeOSSALifetime 6 x Liveness engine))) as Hcall.
  { vm_compute. reflexivity. }
  split; [exact Hcall|].
  set (result := default _ _) in *. destruct result as [r self'].
  exact (proj2 (proj2 (completeOSSALifetime_result_meaning 6 x Liveness engine
                         r self' Hcall))).
Defined.

Lemma completeOSSALifetime_memoises_witness :
  let result := default (NoLifetime, engine)
                  (completeOSSALifetime 6 x Availability engine) in
  completeOSSALifetime 6 x Availability engine = Some result
  ∧ completedValues engine ⊆ completedValues result.2.
Proof.
  assert (completeOSSALifetime 6 x Availability engine
          = Some (default (NoLifetime, engine)
                    (completeOSSALifetime 6 x Availability engine))) as Hcall.
  { vm_compute. reflexivity. }
  split; [exact Hcall|].
  set (result := default _ _) in *. destruct result as [r self'].
  exact (proj1 (completeOSSALifetime_memoises 6 x Availability engine
                  r self' Hcall)).
Defined.

Lemma completeAll_second_pass_witness :
  let results := default [] (completeAll 6 calls engine) in
  completeAll 6 calls engine = Some results
  ∧ ∃ results',
      completeAll 1 calls (lastEngine engine results) = Some results'
      ∧ length results' = length calls
      ∧ ∀ r self', (r, self') ∈ results' →
          r ≠ WasCompleted ∧ self' = lastEngine engine results.
Proof.
  assert (completeAll 6 calls engine
          = Some (default [] (completeAll 6 calls engine))) as Hall.
  { vm_compute. reflexivity. }
  split; [exact Hall|].
  apply (completeAll_second_pass 6 0 calls calls engine _ Hall).
  intros value boundary Hin. by exists boundary.
Defined.

Lemma Boundary_print_injective_witness :
  Boundary_print "boundary: " (Boundary_Value Liveness)
  = "boundary: liveness"%string
  ∧ Boundary_print "boundary: " 7 = "boundary: "%string
  ∧ Boundary_print "boundary: " 3 = Boundary_print "boundary: " 255.
Proof.
  split; [reflexivity|]. split.
  - apply (proj1 (proj2 (Boundary_print_injective "boundary: ")) 7%Z). lia.
  - apply (proj1 (proj2 (proj2 (Boundary_print_injective "boundary: ")))
             3%Z 255%Z).
    right. lia.
Defined.

Example run_visits :
  UnreachableLifetimeCompletion.unreachableBlocks
    (visitUnreachableBlocks
       (UnreachableLifetimeCompletion.new body None) [B; Exit; B; A; Exit])
  = [B; Exit; A].
Proof. reflexivity. Qed.

Example run_second_pass :
  map fst <$> completeAll 1 calls
                (lastEngine engine (default [] (completeAll 6 calls engine)))
  = Some [AlreadyComplete; AlreadyComplete; AlreadyComplete; NoLifetime;
          AlreadyComplete].
Proof. vm_compute. reflexivity. Qed.

End MoreExamples.
